(** * A byte-pair-encoding tokenizer: model of [llm_tokenizer/BPETokenizer.py]

    The Python class [Tokenizer] is embedded as a record of its fields with
    explicit state passing.  Symbols and frequencies are Python integers
    ([Z]); the two merge dictionaries are finite maps; the pair-frequency
    dictionary [tcounts] is kept as an association list in insertion order,
    because [max(self.tcounts.values())] depends on the order in which the
    dictionary yields its values. *)

From Equations Require Import Equations.
From stdpp Require Import gmap list strings pretty.

Local Open Scope Z_scope.

(** ** Data model *)

(** [@dataclass class TokenPair]: two symbols and a frequency that defaults
    to 1.  An instance has neither [__bool__] nor [__len__], so it is always
    truthy. *)
Record TokenPair : Type := mkTokenPair {
  first_token : Z;
  second_token : Z;
  frequency : Z
}.

(** [TokenPair._key] *)
Definition _key (tp : TokenPair) : Z * Z := (first_token tp, second_token tp).

(** [TokenPair.__lt__] *)
Definition tp_lt (self other : TokenPair) : bool :=
  frequency self <? frequency other.

(** The fields of [Tokenizer] that the algorithms read or write. *)
Record Tokenizer : Type := mkTokenizer {
  encoding_vocab_size : Z;
  encoded_tokens : list Z;
  mint_token : Z;
  tcounts : list ((Z * Z) * TokenPair);
  decoding_map : gmap Z TokenPair;
  encoding_map : gmap (Z * Z) Z
}.

(** Outcome of a call: a value, a Python exception, or the model's loop
    budget exhausted. *)
Inductive exception : Type := ValueError.

Inductive result (A : Type) : Type :=
| Ok (a : A)
| Raise (e : exception)
| OutOfFuel.
Arguments Ok {A} a.
Arguments Raise {A} e.
Arguments OutOfFuel {A}.

(** ** Python built-ins *)

(** Truth value of an integer: [if n:] holds exactly when [n] is not 0. *)
Definition truthy (n : Z) : bool := negb (n =? 0).

(** [max(iterable)]: the running maximum is replaced only by an item that
    compares strictly greater ([item > best], which for [TokenPair] falls
    back on the reflected [best.__lt__(item)]), so the first maximal item
    wins; an empty iterable raises [ValueError] (here [None]). *)
Definition py_max {A} (lt : A → A → bool) (l : list A) : option A :=
  match l with
  | [] => None
  | x :: xs => Some (fold_left (λ best item, if lt best item then item else best) xs x)
  end.

(** ** Pair counting: [Tokenizer.count] *)

(** [self.tcounts.get(key, None)] *)
Fixpoint tc_get (key : Z * Z) (tc : list ((Z * Z) * TokenPair)) : option TokenPair :=
  match tc with
  | [] => None
  | (k, tp) :: rest => if decide (k = key) then Some tp else tc_get key rest
  end.

(** [self.tcounts[key].frequency += 1]: the entry keeps its place. *)
Definition tc_incr (key : Z * Z) (tc : list ((Z * Z) * TokenPair)) : list ((Z * Z) * TokenPair) :=
  map (λ e, if decide (e.1 = key)
            then (e.1, mkTokenPair (first_token e.2) (second_token e.2) (frequency e.2 + 1))
            else e) tc.

(** The pairs [(tokens[i], tokens[i+1])] visited by
    [for i, token in enumerate(tokens[:-1])]. *)
Fixpoint adjacent (tokens : list Z) : list (Z * Z) :=
  match tokens with
  | a :: (b :: _) as rest => (a, b) :: adjacent rest
  | _ => []
  end.

(** Body of the counting loop. *)
Definition count_step (tc : list ((Z * Z) * TokenPair)) (p : Z * Z) : list ((Z * Z) * TokenPair) :=
  let tp := mkTokenPair p.1 p.2 1 in
  match tc_get (_key tp) tc with
  | Some _ => tc_incr (_key tp) tc
  | None => tc ++ [(_key tp, tp)]
  end.

Definition count (tokens : list Z) : list ((Z * Z) * TokenPair) :=
  fold_left count_step (adjacent tokens) [].

(** [Tokenizer.get_most_common] *)
Definition get_most_common (tc : list ((Z * Z) * TokenPair)) : option TokenPair :=
  py_max tp_lt (map snd tc).

(** ** One merge: the rewriting loop of [Tokenizer.swap_top] *)

(** The [while idx < len(self.encoded_tokens) - 1] loop, with its two
    variables [idx] and [new_encoding]. *)
Equations? swap_loop (a b mint : Z) (toks : list Z) (idx : nat) (new_encoding : list Z)
  : nat * list Z by wf (length toks - idx)%nat lt :=
  swap_loop a b mint toks idx new_encoding with decide (idx + 1 < length toks)%nat => {
    | left _ with toks !! idx, toks !! (idx + 1)%nat => {
        | Some A, Some B with decide (a = A ∧ b = B) => {
            | left _ := swap_loop a b mint toks (idx + 2) (new_encoding ++ [mint]);
            | right _ := swap_loop a b mint toks (idx + 1) (new_encoding ++ [A]) };
        | _, _ := (idx, new_encoding) };
    | right _ := (idx, new_encoding) }.
Proof. all: lia. Qed.

(** The loop followed by
    [if idx < len(self.encoded_tokens): new_encoding.append(self.encoded_tokens[idx])]. *)
Definition swap_rewrite (a b mint : Z) (toks : list Z) : list Z :=
  let '(idx, new_encoding) := swap_loop a b mint toks 0 [] in
  match toks !! idx with
  | Some last => new_encoding ++ [last]
  | None => new_encoding
  end.

(** ** Training *)

(** [Tokenizer.__init__] with [raw_tokens=True]. *)
Definition init (tokens : list Z) (vocab_size : Z) : Tokenizer :=
  {| encoding_vocab_size := vocab_size;
     encoded_tokens := tokens;
     mint_token := 256;
     tcounts := count tokens;
     decoding_map := ∅;
     encoding_map := ∅ |}.

(** The state change of [swap_top] once [top_tp] has frequency other than 1. *)
Definition merge_step (self : Tokenizer) (top_tp : TokenPair) : Tokenizer :=
  let new_encoding :=
    swap_rewrite (first_token top_tp) (second_token top_tp) (mint_token self) (encoded_tokens self) in
  {| encoding_vocab_size := encoding_vocab_size self;
     encoded_tokens := new_encoding;
     mint_token := mint_token self + 1;
     tcounts := count new_encoding;
     decoding_map := <[mint_token self := top_tp]> (decoding_map self);
     encoding_map := <[_key top_tp := mint_token self]> (encoding_map self) |}.

(** [Tokenizer.swap_top]: returns the "finished" flag and the new state. *)
Definition swap_top (self : Tokenizer) : result (bool * Tokenizer) :=
  match get_most_common (tcounts self) with
  | None => Raise ValueError
  | Some top_tp =>
      if frequency top_tp =? 1 then Ok (true, self)
      else
        let self' := merge_step self top_tp in
        match py_max Z.ltb (encoded_tokens self') with
        | None => Raise ValueError
        | Some m => Ok (m + 1 =? encoding_vocab_size self', self')
        end
  end.

(** [Tokenizer.train]: [swap_top] is called once, then again for as long as
    it returns [False].  [fuel] bounds the number of repetitions. *)
Fixpoint train (fuel : nat) (self : Tokenizer) : result Tokenizer :=
  match swap_top self with
  | Raise e => Raise e
  | OutOfFuel => OutOfFuel
  | Ok (true, self') => Ok self'
  | Ok (false, self') =>
      match fuel with
      | O => OutOfFuel
      | S fuel' => train fuel' self'
      end
  end.

(** ** Decoding *)

(** One pass of the [for token in encoded_tokens] loop: the [decoded] flag
    and [decoded_tokens]. *)
Definition decode_pass (dm : gmap Z TokenPair) (encoded_tokens : list Z) : bool * list Z :=
  fold_left
    (λ '(decoded, decoded_tokens) token,
       match dm !! token with
       | Some tp => (false, decoded_tokens ++ [first_token tp; second_token tp])
       | None => (decoded, decoded_tokens ++ [token])
       end)
    encoded_tokens (true, []).

(** [Tokenizer.decode] with [raw_tokens=True]: passes are repeated until one
    leaves [decoded] set. *)
Fixpoint decode (fuel : nat) (dm : gmap Z TokenPair) (encoded_tokens : list Z)
  : option (list Z) :=
  let '(decoded, decoded_tokens) := decode_pass dm encoded_tokens in
  if decoded then Some decoded_tokens
  else match fuel with
       | O => None
       | S fuel' => decode fuel' dm decoded_tokens
       end.

(** ** Encoding *)

(** The inner [while idx < len(decoded_tokens) - 1] loop of
    [Tokenizer.encode], with [encoded], [idx] and [encoded_tokens]. *)
Equations? encode_scan (em : gmap (Z * Z) Z) (toks : list Z) (idx : nat)
    (encoded : bool) (encoded_tokens : list Z)
  : nat * bool * list Z by wf (length toks - idx)%nat lt :=
  encode_scan em toks idx encoded encoded_tokens with decide (idx + 1 < length toks)%nat => {
    | left _ with toks !! idx, toks !! (idx + 1)%nat => {
        | Some A, Some B with em !! _key (mkTokenPair A B 1) => {
            | Some encoded_token with truthy encoded_token => {
                | true :=
                    encode_scan em toks (idx + 2) false (encoded_tokens ++ [encoded_token]);
                | false :=
                    encode_scan em toks (idx + 1) encoded (encoded_tokens ++ [A]) };
            | None := encode_scan em toks (idx + 1) encoded (encoded_tokens ++ [A]) };
        | _, _ := (idx, encoded, encoded_tokens) };
    | right _ := (idx, encoded, encoded_tokens) }.
Proof. all: lia. Qed.

(** One full pass: the loop and the trailing
    [if idx < len(decoded_tokens): encoded_tokens.append(decoded_tokens[idx])]. *)
Definition encode_pass (em : gmap (Z * Z) Z) (toks : list Z) : bool * list Z :=
  let '(idx, encoded, encoded_tokens) := encode_scan em toks 0 true [] in
  match toks !! idx with
  | Some last => (encoded, encoded_tokens ++ [last])
  | None => (encoded, encoded_tokens)
  end.

(** [Tokenizer.encode] with [raw_tokens=True]. *)
Fixpoint encode (fuel : nat) (em : gmap (Z * Z) Z) (decoded_tokens : list Z)
  : option (list Z) :=
  let '(encoded, encoded_tokens) := encode_pass em decoded_tokens in
  if encoded then Some encoded_tokens
  else match fuel with
       | O => None
       | S fuel' => encode fuel' em encoded_tokens
       end.

(** ** Reference definitions used to state the properties *)

(** Number of occurrences of [p] among the pairs [l]. *)
Fixpoint occ (p : Z * Z) (l : list (Z * Z)) : Z :=
  match l with
  | [] => 0
  | q :: l' => (if decide (q = p) then 1 else 0) + occ p l'
  end.

(** Position of the first occurrence of [p] in [l] ([length l] when there
    is none).  Position [i] in [adjacent ts] is the pair at stream positions
    [i], [i+1]. *)
Fixpoint first_pos (p : Z * Z) (l : list (Z * Z)) : nat :=
  match l with
  | [] => O
  | q :: l' => if decide (q = p) then O else S (first_pos p l')
  end.

(** Distinct pairs of [l] in order of first appearance. *)
Definition seen_order (l : list (Z * Z)) : list (Z * Z) :=
  fold_left (λ acc p, if decide (p ∈ acc) then acc else acc ++ [p]) l [].

(** The greedy rewrite as the specification words it: scan left to right;
    on a match at positions i, i+1 emit the new symbol and resume at i+2,
    otherwise emit the symbol at i and resume at i+1. *)
Fixpoint greedy_replace (a b mint : Z) (l : list Z) : list Z :=
  match l with
  | [] => []
  | x :: rest =>
      match rest with
      | [] => [x]
      | y :: rest' =>
          if decide (a = x ∧ b = y) then mint :: greedy_replace a b mint rest'
          else x :: greedy_replace a b mint rest
      end
  end.

(** Number of replacements made by the greedy rewrite. *)
Fixpoint greedy_merges (a b : Z) (l : list Z) : nat :=
  match l with
  | [] => O
  | x :: rest =>
      match rest with
      | [] => O
      | y :: rest' =>
          if decide (a = x ∧ b = y) then S (greedy_merges a b rest')
          else greedy_merges a b rest
      end
  end.

(** Undoing one merge: every [mint] becomes [a], [b] again. *)
Definition unmerge (a b mint : Z) (l : list Z) : list Z :=
  flat_map (λ s, if decide (s = mint) then [a; b] else [s]) l.

(** One encode pass read off the list instead of by index. *)
Fixpoint merge_scan (em : gmap (Z * Z) Z) (l : list Z) : bool * list Z :=
  match l with
  | [] => (true, [])
  | x :: rest =>
      match rest with
      | [] => (true, [x])
      | y :: rest' =>
          match em !! (x, y) with
          | Some t =>
              if truthy t then (false, t :: (merge_scan em rest').2)
              else ((merge_scan em rest).1, x :: (merge_scan em rest).2)
          | None => ((merge_scan em rest).1, x :: (merge_scan em rest).2)
          end
      end
  end.

(** One-level expansion of a symbol by the decoding map. *)
Definition expand1 (dm : gmap Z TokenPair) (s : Z) : list Z :=
  match dm !! s with
  | Some tp => [first_token tp; second_token tp]
  | None => [s]
  end.

(** [iter_pass dm k ts]: the token list after [k] decode passes. *)
Fixpoint iter_pass (dm : gmap Z TokenPair) (k : nat) (ts : list Z) : list Z :=
  match k with
  | O => ts
  | S k' => iter_pass dm k' (decode_pass dm ts).2
  end.

(** [expands dm h s l]: within [h] levels of the decoding map, symbol [s]
    unfolds to the list [l] of symbols that are not keys. *)
Inductive expands (dm : gmap Z TokenPair) : nat → Z → list Z → Prop :=
| expands_leaf h s : dm !! s = None → expands dm h s [s]
| expands_node h s tp la lb :
    dm !! s = Some tp →
    expands dm h (first_token tp) la →
    expands dm h (second_token tp) lb →
    expands dm (S h) s (la ++ lb).

(** Raw symbols are byte values. *)
Definition raw (ts : list Z) : Prop := Forall (λ s, 0 ≤ s < 256) ts.

(** [max(decode_map.keys() ∪ {255}) + 1] *)
Definition vocab_size (dm : gmap Z TokenPair) : Z :=
  foldr Z.max 255 (map fst (map_to_list dm)) + 1.

(** ** Definitions used in the proofs *)

(** The statement after the loop of [swap_top], applied to the loop's result. *)
Definition swap_finish (toks : list Z) (r : nat * list Z) : list Z :=
  match toks !! r.1 with
  | Some last => r.2 ++ [last]
  | None => r.2
  end.

(** The statement after the inner loop of [encode], applied to the loop's result. *)
Definition encode_finish (toks : list Z) (r : nat * bool * list Z) : bool * list Z :=
  match toks !! r.1.1 with
  | Some last => (r.1.2, r.2 ++ [last])
  | None => (r.1.2, r.2)
  end.

(** The table built by the counting loop over the pairs [l]. *)
Definition tally (l : list (Z * Z)) : list ((Z * Z) * TokenPair) :=
  fold_left count_step l [].

(** The table entry of pair [k] when the pairs [l] have been counted. *)
Definition entry (l : list (Z * Z)) (k : Z * Z) : (Z * Z) * TokenPair :=
  (k, mkTokenPair k.1 k.2 (occ k l)).

(** The state is coherent when the frequency table is the count of the
    current stream, as [__init__] and [swap_top] leave it. *)
Definition coherent (self : Tokenizer) : Prop :=
  tcounts self = count (encoded_tokens self).

(** The two merge tables stay in lock-step, and minted ids lie between 256
    and the next id to mint. *)
Definition tables_ok (self : Tokenizer) : Prop :=
  256 ≤ mint_token self
  ∧ (∀ k tp, decoding_map self !! k = Some tp → 256 ≤ k < mint_token self)
  ∧ (∀ p m, encoding_map self !! p = Some m →
       256 ≤ m < mint_token self
       ∧ ∃ f, decoding_map self !! m = Some (mkTokenPair p.1 p.2 f)).

(** Every decoding-map entry unfolds to strictly smaller symbols. *)
Definition decreasing (dm : gmap Z TokenPair) : Prop :=
  ∀ k tp, dm !! k = Some tp → first_token tp < k ∧ second_token tp < k.

(** On raw input every symbol of the stream is below the next id to mint. *)
Definition below_mint (self : Tokenizer) : Prop :=
  coherent self
  ∧ (∀ s, s ∈ encoded_tokens self → s < mint_token self)
  ∧ decreasing (decoding_map self).

(** State of a run whose first selected pair was [top0]. *)
Definition after_first_merge (tokens : list Z) (v : Z) (top0 : TokenPair)
    (self : Tokenizer) : Prop :=
  self = init tokens v
  ∨ (frequency top0 ≠ 1 ∧ 256 < mint_token self ∧ decoding_map self !! 256 = Some top0).

(** On raw input a merged pair never comes back, so no entry of
    [encoding_map] is ever overwritten. *)
Definition pairs_retired (self : Tokenizer) : Prop :=
  below_mint self ∧ tables_ok self
  ∧ (∀ m tp, decoding_map self !! m = Some tp → encoding_map self !! _key tp = Some m)
  ∧ (∀ p, is_Some (encoding_map self !! p) → p ∉ adjacent (encoded_tokens self)).

(** The stream of a training state unfolds to the training input. *)
Definition stream_unfolds (tokens : list Z) (self : Tokenizer) : Prop :=
  below_mint self ∧ 256 ≤ mint_token self
  ∧ ∃ h ls, Forall2 (expands (decoding_map self) h) (encoded_tokens self) ls
            ∧ concat ls = tokens.

(** Raw symbols and the components of table entries are not negative. *)
Definition ids_nonneg (self : Tokenizer) : Prop :=
  coherent self ∧ 256 ≤ mint_token self
  ∧ (∀ s, s ∈ encoded_tokens self → 0 ≤ s)
  ∧ (∀ k tp, decoding_map self !! k = Some tp → 0 ≤ first_token tp ∧ 0 ≤ second_token tp).

(** Sample inputs. *)
Definition abcabcd : list Z := [97; 98; 99; 97; 98; 99; 100].

Definition aaa : list Z := [97; 97; 97].

Definition aaabdaaabac : list Z := [97; 97; 97; 98; 100; 97; 97; 97; 98; 97; 99].

(** The decoding map learned from "aaabdaaabac" with target size 258. *)
Definition trained_aaabdaaabac : gmap Z TokenPair :=
  <[257 := mkTokenPair 256 97 2]> {[ 256 := mkTokenPair 97 97 4 ]}.

(** Sum of the frequencies held in a pair table. *)
Definition total_frequency (tc : list ((Z * Z) * TokenPair)) : Z :=
  foldr (λ e acc, frequency e.2 + acc) 0 tc.

(** Symbols a trained tokenizer can emit: raw bytes and minted ids. *)
Definition valid_ids (self : Tokenizer) (ts : list Z) : Prop :=
  Forall (λ s, 0 ≤ s < mint_token self) ts.

(** ** The visualizer: [decode_token] of [visualize_encoding_map] *)

(** [chr(token)], used by the code only for 32 <= token < 127. *)
Definition chr (token : Z) : string :=
  String (Ascii.ascii_of_nat (Z.to_nat token)) EmptyString.

(** The f-string "[{token}]". *)
Definition bracketed (token : Z) : string := "[" +:+ pretty token +:+ "]".

(** The nested function [decode_token]; [fuel] bounds the recursion depth. *)
Fixpoint decode_token (fuel : nat) (dm : gmap Z TokenPair) (token : Z) : option string :=
  if token <? 256 then
    Some (if (32 <=? token) && (token <? 127) then chr token else bracketed token)
  else
    match dm !! token with
    | Some tp =>
        match fuel with
        | O => None
        | S fuel' =>
            match decode_token fuel' dm (first_token tp) with
            | Some first =>
                match decode_token fuel' dm (second_token tp) with
                | Some second => Some (first +:+ second)
                | None => None
                end
            | None => None
            end
        end
    | None => Some (bracketed token)
    end.

(** What the visualizer shows for a symbol that is not expanded. *)
Definition show_symbol (s : Z) : string :=
  if (32 <=? s) && (s <? 127) then chr s else bracketed s.

(** Concatenation of the strings shown for a list of symbols. *)
Definition show_symbols (l : list Z) : string :=
  foldr (λ s acc, show_symbol s +:+ acc) EmptyString l.

(** ** Persistence: [Tokenizer._filename] *)

(** [name] is a string, [path_prefix] is [None] or a string; an empty
    prefix is falsy like [None]. *)
Definition _filename (name : string) (path_prefix : option string) : string :=
  let res := "tokenizer_" +:+ name +:+ ".pickle" in
  match path_prefix with
  | Some pre => if decide (pre = "") then res else pre +:+ res
  | None => res
  end.

(** ** The rewriting loop against the greedy rewrite *)

Section swap_loop_facts.
Variables a b mint : Z.

Lemma swap_rewrite_finish toks :
  swap_rewrite a b mint toks = swap_finish toks (swap_loop a b mint toks 0 []).
Proof. unfold swap_rewrite, swap_finish. by destruct (swap_loop _ _ _ _ _ _). Qed.

Lemma drop_two (toks : list Z) idx A B :
  toks !! idx = Some A → toks !! (idx + 1)%nat = Some B →
  drop idx toks = A :: B :: drop (idx + 2) toks.
Proof.
  intros HA HB. rewrite (drop_S _ _ _ HA).
  replace (S idx) with (idx + 1)%nat by lia.
  rewrite (drop_S _ _ _ HB). do 3 f_equal. lia.
Qed.

Lemma swap_loop_greedy toks idx acc :
  swap_finish toks (swap_loop a b mint toks idx acc)
  = acc ++ greedy_replace a b mint (drop idx toks).
Proof.
  funelim (swap_loop a b mint toks idx acc).
  - unfold swap_finish; simpl.
    destruct (toks !! idx) as [last|] eqn:Hl.
    + rewrite (drop_S _ _ _ Hl), drop_ge; [done|].
      apply lookup_lt_Some in Hl. lia.
    + apply lookup_ge_None in Hl. by rewrite drop_ge, app_nil_r.
  - match goal with H : _ !! _ = None |- _ => apply lookup_ge_None in H; lia end.
  - match goal with H : _ !! _ = None |- _ => apply lookup_ge_None in H; lia end.
  - rewrite H. rewrite (drop_two _ _ _ _ Heq1 Heq0). simpl.
    rewrite decide_True by done. by rewrite <- app_assoc.
  - rewrite H. rewrite (drop_two _ _ _ _ Heq1 Heq0). simpl.
    rewrite decide_False by done.
    rewrite (drop_S _ _ _ Heq0). replace (S (idx + 1)) with (idx + 2)%nat by lia.
    by rewrite <- app_assoc.
Qed.

(** The index loop of [swap_top] computes the greedy rewrite. *)
Lemma swap_rewrite_greedy toks :
  swap_rewrite a b mint toks = greedy_replace a b mint toks.
Proof. by rewrite swap_rewrite_finish, swap_loop_greedy. Qed.

Lemma greedy_length l :
  (length (greedy_replace a b mint l) + greedy_merges a b l = length l)%nat
  ∧ (2 * greedy_merges a b l ≤ length l)%nat.
Proof.
  induction l as [l IH] using (induction_ltof1 _ (@length Z)); unfold ltof in IH.
  destruct l as [|x [|y rest]]; simpl; [lia..|].
  case_decide.
  - destruct (IH rest) as [? ?]; simpl; lia.
  - destruct (IH (y :: rest)) as [? ?]; simpl in *; lia.
Qed.

Lemma greedy_merges_pos l : (a, b) ∈ adjacent l → (0 < greedy_merges a b l)%nat.
Proof.
  induction l as [l IH] using (induction_ltof1 _ (@length Z)); unfold ltof in IH.
  destruct l as [|x [|y rest]]; simpl; [by intros ?%elem_of_nil..|].
  intros Hin. case_decide; [lia|].
  apply elem_of_cons in Hin as [Heq|Hin]; [naive_solver|].
  apply (IH (y :: rest)); [simpl; lia|done].
Qed.

Lemma greedy_mint_in l : (a, b) ∈ adjacent l → mint ∈ greedy_replace a b mint l.
Proof.
  induction l as [l IH] using (induction_ltof1 _ (@length Z)); unfold ltof in IH.
  destruct l as [|x [|y rest]]; simpl; [by intros ?%elem_of_nil..|].
  intros Hin. case_decide; [left|].
  apply elem_of_cons in Hin as [Heq|Hin]; [naive_solver|].
  right. apply (IH (y :: rest)); [simpl; lia|done].
Qed.

Lemma greedy_elem l s : s ∈ greedy_replace a b mint l → s = mint ∨ s ∈ l.
Proof.
  induction l as [l IH] using (induction_ltof1 _ (@length Z)); unfold ltof in IH.
  destruct l as [|x [|y rest]]; simpl; [by intros ?%elem_of_nil|set_solver|].
  case_decide; intros [->|Hin]%elem_of_cons.
  - by left.
  - destruct (IH rest ltac:(simpl; lia) Hin); set_solver.
  - set_solver.
  - destruct (IH (y :: rest) ltac:(simpl; lia) Hin); set_solver.
Qed.

(** Unmatched symbols keep their order: undoing the merge restores the
    stream, provided the new symbol is fresh. *)
Lemma unmerge_greedy l : mint ∉ l → unmerge a b mint (greedy_replace a b mint l) = l.
Proof.
  induction l as [l IH] using (induction_ltof1 _ (@length Z)); unfold ltof in IH.
  destruct l as [|x [|y rest]]; intros Hm; simpl; [done| |].
  - rewrite decide_False; [done|set_solver].
  - case_decide as Hab.
    + unfold unmerge in *. simpl. rewrite decide_True by done.
      destruct Hab as [-> ->]. simpl. do 2 f_equal. apply IH; [simpl; lia|set_solver].
    + unfold unmerge in *. simpl. rewrite decide_False by set_solver.
      simpl. f_equal. apply (IH (y :: rest)); [simpl; lia|set_solver].
Qed.
End swap_loop_facts.

(** ** Pair counting and the most frequent pair *)

Lemma occ_app p l1 l2 : occ p (l1 ++ l2) = occ p l1 + occ p l2.
Proof. induction l1 as [|q l1 IH]; simpl; [done|]. rewrite IH. lia. Qed.

Lemma occ_nonneg p l : 0 ≤ occ p l.
Proof. induction l as [|q l IH]; simpl; [done|]. case_decide; lia. Qed.

Lemma occ_notin p l : p ∉ l → occ p l = 0.
Proof.
  induction l as [|q l IH]; simpl; [done|].
  intros Hn. rewrite decide_False by set_solver. rewrite IH; [done|set_solver].
Qed.

Lemma occ_in p l : p ∈ l → 1 ≤ occ p l.
Proof.
  induction l as [|q l IH]; [by intros ?%elem_of_nil|]. simpl.
  pose proof (occ_nonneg p l). intros [->|Hin]%elem_of_cons.
  - rewrite decide_True by done. lia.
  - specialize (IH Hin). case_decide; lia.
Qed.

Lemma occ_le_length p l : occ p l ≤ Z.of_nat (length l).
Proof.
  induction l as [|q l IH]; [done|].
  cbn [occ length]. rewrite Nat2Z.inj_succ. case_decide; lia.
Qed.

Lemma seen_order_snoc l p :
  seen_order (l ++ [p]) = if decide (p ∈ seen_order l) then seen_order l else seen_order l ++ [p].
Proof. unfold seen_order. by rewrite fold_left_app. Qed.

Lemma elem_of_seen_order l p : p ∈ seen_order l ↔ p ∈ l.
Proof.
  induction l as [|q l IH] using rev_ind; [done|].
  rewrite seen_order_snoc. case_decide; set_solver.
Qed.

(** Distinct pairs appear in [seen_order] in the order of their first
    occurrences: everything before the first occurrence of [p] in [l] is
    listed before [p]. *)
Lemma seen_order_split l pre p post :
  seen_order l = pre ++ p :: post →
  ∃ l1 l2, l = l1 ++ p :: l2 ∧ ∀ x, x ∈ l1 → x ∈ pre.
Proof.
  revert post. induction l as [|q l IH] using rev_ind; intros post.
  - unfold seen_order; simpl. by destruct pre.
  - rewrite seen_order_snoc. case_decide as Hq.
    + intros (l1 & l2 & -> & Hpre)%IH.
      exists l1, (l2 ++ [q]). by rewrite <- app_assoc.
    + destruct post as [|x post _] using rev_ind.
      * intros [Hpre ->]%(app_inj_tail (seen_order l) pre q p).
        exists l, []. split; [done|]. intros x Hx. rewrite <- Hpre.
        by apply elem_of_seen_order.
      * rewrite app_comm_cons, app_assoc.
        intros [Hs ->]%app_inj_tail.
        destruct (IH _ Hs) as (l1 & l2 & -> & Hpre).
        exists l1, (l2 ++ [x]). by rewrite <- app_assoc.
Qed.

Lemma first_pos_app_notin p l1 l2 :
  p ∉ l1 → first_pos p (l1 ++ l2) = (length l1 + first_pos p l2)%nat.
Proof.
  induction l1 as [|q l1 IH]; simpl; [done|].
  intros Hn. rewrite decide_False by set_solver. rewrite IH; [done|set_solver].
Qed.

Lemma first_pos_lookup p l : p ∈ l → l !! first_pos p l = Some p.
Proof.
  induction l as [|q l IH]; [by intros ?%elem_of_nil|]. simpl.
  intros Hin. case_decide as Hq; [by subst|].
  apply IH. set_solver.
Qed.

Lemma tc_get_entries l ks k :
  tc_get k (map (entry l) ks) = if decide (k ∈ ks) then Some (entry l k).2 else None.
Proof.
  induction ks as [|k' ks IH]; simpl; [done|].
  destruct (decide (k' = k)) as [->|Hk].
  - rewrite decide_True; [done|set_solver].
  - rewrite IH. case_decide; [rewrite decide_True|rewrite decide_False]; set_solver.
Qed.

(** [count] lists every distinct pair once, in first-seen order, with its
    number of occurrences. *)
Lemma tally_spec l : tally l = map (entry l) (seen_order l).
Proof.
  induction l as [|p l IH] using rev_ind; [done|].
  unfold tally in *. rewrite fold_left_app. simpl. rewrite IH.
  unfold count_step, _key. simpl. rewrite <- (surjective_pairing p).
  rewrite tc_get_entries, seen_order_snoc.
  case_decide as Hp.
  - unfold tc_incr. rewrite map_map. apply map_ext. intros k. simpl.
    unfold entry. rewrite occ_app. simpl. case_decide as Hk.
    + subst. rewrite decide_True by done. do 2 f_equal; lia.
    + rewrite decide_False by done. do 2 f_equal; lia.
  - rewrite map_app. simpl. f_equal.
    + apply map_ext_in. intros k Hk%list_elem_of_In. unfold entry.
      rewrite occ_app. simpl. rewrite decide_False by set_solver.
      do 2 f_equal; lia.
    + unfold entry. rewrite occ_app. simpl. rewrite decide_True by done.
      rewrite occ_notin by (by rewrite <- elem_of_seen_order).
      by destruct p.
Qed.

Lemma count_spec ts : count ts = map (entry (adjacent ts)) (seen_order (adjacent ts)).
Proof. apply tally_spec. Qed.

(** Entry [i] of [adjacent ts] is the pair [(ts[i], ts[i+1])]. *)
Lemma adjacent_lookup ts i a b :
  adjacent ts !! i = Some (a, b) ↔ ts !! i = Some a ∧ ts !! S i = Some b.
Proof.
  revert i. induction ts as [|x [|y ts] IH]; intros i.
  - simpl. rewrite !lookup_nil. naive_solver.
  - destruct i; simpl; rewrite ?lookup_nil; naive_solver.
  - destruct i as [|i].
    + simpl. naive_solver.
    + change (adjacent (x :: y :: ts) !! S i) with (adjacent (y :: ts) !! i).
      rewrite IH. done.
Qed.

Lemma adjacent_length ts : length (adjacent ts) = (length ts - 1)%nat.
Proof.
  induction ts as [|a [|b ts] IH]; simpl in *; [done..|]. rewrite IH. lia.
Qed.

(** [max] keeps the first of the maximal items. *)
Lemma fold_max_first {A} (f : A → Z) xs pre m mid :
  (∀ x, x ∈ pre → f x < f m) → (∀ x, x ∈ mid → f x ≤ f m) →
  ∃ pre' post',
    pre ++ m :: mid ++ xs
    = pre' ++ fold_left (λ best item, if f best <? f item then item else best) xs m :: post'
    ∧ (∀ x, x ∈ pre' → f x < f (fold_left (λ best item, if f best <? f item then item else best) xs m))
    ∧ (∀ x, x ∈ post' → f x ≤ f (fold_left (λ best item, if f best <? f item then item else best) xs m)).
Proof.
  revert pre m mid. induction xs as [|v xs IH]; intros pre m mid Hpre Hmid; simpl.
  - exists pre, mid. by rewrite app_nil_r.
  - destruct (Z.ltb_spec (f m) (f v)) as [Hlt|Hge].
    + destruct (IH (pre ++ m :: mid) v []) as (pre' & post' & Heq & ? & ?).
      * intros x [Hx|[->|Hx]%elem_of_cons]%elem_of_app;
          [specialize (Hpre x Hx)| |specialize (Hmid x Hx)]; lia.
      * by intros x ?%elem_of_nil.
      * exists pre', post'. split; [|done].
        rewrite <- Heq. simpl. by rewrite <- app_assoc.
    + destruct (IH pre m (mid ++ [v])) as (pre' & post' & Heq & ? & ?); [done| |].
      * intros x [Hx| ->%list_elem_of_singleton]%elem_of_app; [by apply Hmid|lia].
      * exists pre', post'. split; [|done].
        rewrite <- Heq. by rewrite <- app_assoc.
Qed.

Lemma get_most_common_first tc :
  tc ≠ [] →
  ∃ pre top post,
    get_most_common tc = Some top.2 ∧ tc = pre ++ top :: post
    ∧ (∀ e, e ∈ pre → frequency e.2 < frequency top.2)
    ∧ (∀ e, e ∈ post → frequency e.2 ≤ frequency top.2).
Proof.
  destruct tc as [|e0 tc]; [done|]. intros _.
  unfold get_most_common, py_max, tp_lt. simpl.
  destruct (fold_max_first frequency (map snd tc) [] e0.2 []) as (pre & post & Heq & Hpre & Hpost);
    [by intros x ?%elem_of_nil..|].
  simpl in Heq. change (e0.2 :: map snd tc) with (snd <$> (e0 :: tc)) in Heq.
  apply fmap_app_inv in Heq as (pre' & rest & -> & Hrest & Htc).
  symmetry in Hrest.
  apply fmap_cons_inv in Hrest as (top & post' & Htop & -> & ->).
  exists pre', top, post'. split_and!; [by rewrite Htop|done| |].
  - intros e He. rewrite <- Htop. apply Hpre. by apply list_elem_of_fmap_2.
  - intros e He. rewrite <- Htop. apply Hpost. by apply list_elem_of_fmap_2.
Qed.

Lemma count_nonempty ts : (2 ≤ length ts)%nat → count ts ≠ [].
Proof.
  destruct ts as [|a [|b ts]]; simpl; [lia..|]. intros _.
  rewrite count_spec. intros Hnil%fmap_nil_inv.
  assert ((a, b) ∈ seen_order (adjacent (a :: b :: ts))) as Hin
    by (apply elem_of_seen_order; left).
  rewrite Hnil in Hin. by apply elem_of_nil in Hin.
Qed.

(** Shape of the selected pair: it splits the first-seen list of pairs into
    strictly rarer pairs before it and no more frequent pairs after it. *)
Lemma most_common_split ts :
  count ts ≠ [] →
  ∃ pre p post,
    get_most_common (count ts) = Some (entry (adjacent ts) p).2
    ∧ seen_order (adjacent ts) = pre ++ p :: post
    ∧ (∀ q, q ∈ pre → occ q (adjacent ts) < occ p (adjacent ts))
    ∧ (∀ q, q ∈ post → occ q (adjacent ts) ≤ occ p (adjacent ts)).
Proof.
  intros Hne. destruct (get_most_common_first (count ts) Hne)
    as (pre & top & post & Hget & Hsplit & Hpre & Hpost).
  rewrite count_spec in Hsplit.
  change (map (entry (adjacent ts)) (seen_order (adjacent ts)))
    with (entry (adjacent ts) <$> seen_order (adjacent ts)) in Hsplit.
  apply fmap_app_inv in Hsplit as (spre & srest & -> & Hrest & Hseen).
  symmetry in Hrest. apply fmap_cons_inv in Hrest as (p & spost & -> & -> & ->).
  exists spre, p, spost. split_and!; [done|done| |].
  - intros q Hq. apply (Hpre (entry (adjacent ts) q)). by apply list_elem_of_fmap_2.
  - intros q Hq. apply (Hpost (entry (adjacent ts) q)). by apply list_elem_of_fmap_2.
Qed.

Lemma most_common_occurs ts top :
  get_most_common (count ts) = Some top →
  _key top ∈ adjacent ts ∧ frequency top = occ (_key top) (adjacent ts) ∧ 1 ≤ frequency top.
Proof.
  intros Hget.
  assert (count ts ≠ []) as Hne by (intros Hnil; by rewrite Hnil in Hget).
  destruct (most_common_split ts Hne) as (pre & p & post & Hget' & Hseen & _).
  rewrite Hget in Hget'. injection Hget' as ->.
  assert (p ∈ adjacent ts) as Hp.
  { apply elem_of_seen_order. rewrite Hseen. set_solver. }
  destruct p as [a b]. unfold entry, _key; simpl.
  split_and!; [done..|by apply occ_in].
Qed.

Lemma py_max_Z (l : list Z) :
  l ≠ [] → ∃ m, py_max Z.ltb l = Some m ∧ m ∈ l ∧ ∀ x, x ∈ l → x ≤ m.
Proof.
  destruct l as [|x0 l]; [done|]. intros _. simpl.
  destruct (fold_max_first (λ x, x) l [] x0 []) as (pre & post & Heq & Hpre & Hpost);
    [by intros x ?%elem_of_nil..|].
  simpl in Heq. eexists. split; [done|]. rewrite Heq. split; [set_solver|].
  intros x [Hx|[->|Hx]%elem_of_cons]%elem_of_app;
    [specialize (Hpre x Hx); lia|lia|by apply Hpost].
Qed.

(** C2: on a stream of at least two symbols [get_most_common] returns an
    adjacent pair of the stream, with its number of occurrences as
    frequency; no pair occurs more often; and any other pair that occurs as
    often has its first occurrence later in the stream. *)
Theorem most_common_first_seen_max (ts : list Z) :
  (2 ≤ length ts)%nat →
  ∃ top,
    get_most_common (count ts) = Some top
    ∧ _key top ∈ adjacent ts
    ∧ frequency top = occ (_key top) (adjacent ts)
    ∧ (∀ q, occ q (adjacent ts) ≤ frequency top)
    ∧ (∀ q, q ≠ _key top → occ q (adjacent ts) = frequency top →
         (first_pos (_key top) (adjacent ts) < first_pos q (adjacent ts))%nat).
Proof.
  intros Hlen.
  destruct (most_common_split ts (count_nonempty ts Hlen))
    as (pre & p & post & Hget & Hseen & Hpre & Hpost).
  set (l := adjacent ts) in *.
  assert (p ∈ l) as Hp.
  { apply elem_of_seen_order. rewrite Hseen. set_solver. }
  assert (∀ q, occ q l ≤ occ p l) as Hmax.
  { intros q. destruct (decide (q ∈ l)) as [Hq|Hq].
    - apply elem_of_seen_order in Hq. rewrite Hseen in Hq.
      apply elem_of_app in Hq as [Hq|[->|Hq]%elem_of_cons];
        [specialize (Hpre q Hq); lia|lia|by apply Hpost].
    - rewrite (occ_notin q l Hq). apply occ_nonneg. }
  exists (entry l p).2. destruct p as [a b]. unfold entry, _key; simpl.
  split_and!; [done..|].
  intros q Hne Htie.
  destruct (seen_order_split _ _ _ _ Hseen) as (l1 & l2 & Hl & Hl1).
  assert (∀ x, x ∈ l1 → occ x l < occ (a, b) l) as Hrare by (intros x Hx; by apply Hpre, Hl1).
  assert ((a, b) ∉ l1) as Hp1 by (intros Hx%Hrare; lia).
  assert (q ∉ l1) as Hq1 by (intros Hx%Hrare; lia).
  rewrite Hl, !first_pos_app_notin by done. simpl.
  rewrite decide_True by done. rewrite decide_False by done. lia.
Qed.

Lemma most_common_first_seen_max_witness :
  ∃ top,
    get_most_common (count abcabcd) = Some top
    ∧ _key top ∈ adjacent abcabcd
    ∧ frequency top = occ (_key top) (adjacent abcabcd)
    ∧ (∀ q, occ q (adjacent abcabcd) ≤ frequency top)
    ∧ (∀ q, q ≠ _key top → occ q (adjacent abcabcd) = frequency top →
         (first_pos (_key top) (adjacent abcabcd) < first_pos q (adjacent abcabcd))%nat).
Proof. apply (most_common_first_seen_max abcabcd). simpl. lia. Defined.

(** On "abcabcd" the pairs (a,b) and (b,c) both occur twice; the one seen
    first is selected. *)
Example most_common_tie :
  get_most_common (count abcabcd) = Some (mkTokenPair 97 98 2).
Proof. reflexivity. Qed.

(** ** Training: the loop and its invariants *)

Lemma swap_top_inv self b self' :
  swap_top self = Ok (b, self') →
  ∃ top, get_most_common (tcounts self) = Some top
    ∧ ((frequency top = 1 ∧ b = true ∧ self' = self)
       ∨ (frequency top ≠ 1 ∧ self' = merge_step self top
          ∧ ∃ m, py_max Z.ltb (encoded_tokens self') = Some m
               ∧ b = (m + 1 =? encoding_vocab_size self))).
Proof.
  unfold swap_top. destruct (get_most_common (tcounts self)) as [top|]; [|done].
  destruct (Z.eqb_spec (frequency top) 1) as [Hf|Hf].
  - intros [= <- <-]. exists top. split; [done|]. by left.
  - destruct (py_max Z.ltb (encoded_tokens (merge_step self top))) as [m|] eqn:Hm; [|done].
    intros [= <- <-]. exists top. split; [done|]. right. split_and!; [done..|].
    by exists m.
Qed.

(** Proof rule for the [train] loop: [P] holds whenever [swap_top] is called,
    [Q] when the loop is left. *)
Lemma train_rule (P Q : Tokenizer → Prop) :
  (∀ self top, P self → get_most_common (tcounts self) = Some top →
     frequency top = 1 → Q self) →
  (∀ self top m, P self → get_most_common (tcounts self) = Some top →
     frequency top ≠ 1 →
     py_max Z.ltb (encoded_tokens (merge_step self top)) = Some m →
     m + 1 = encoding_vocab_size self → Q (merge_step self top)) →
  (∀ self top m, P self → get_most_common (tcounts self) = Some top →
     frequency top ≠ 1 →
     py_max Z.ltb (encoded_tokens (merge_step self top)) = Some m →
     m + 1 ≠ encoding_vocab_size self → P (merge_step self top)) →
  ∀ fuel self self', P self → train fuel self = Ok self' → Q self'.
Proof.
  intros Hexit1 Hexit2 Hcont fuel.
  induction fuel as [|fuel IH]; intros self self' HP; simpl;
    destruct (swap_top self) as [[[] s1]| |] eqn:Hs; try done.
  all: apply swap_top_inv in Hs as (top & Hget & [(Hf & ? & ->)|(Hf & -> & m & Hm & Hb)]);
    try done.
  - intros [= <-]. eauto.
  - intros [= <-]. symmetry in Hb. apply Z.eqb_eq in Hb. eauto.
  - intros [= <-]. eauto.
  - intros [= <-]. symmetry in Hb. apply Z.eqb_eq in Hb. eauto.
  - intros Ht. symmetry in Hb. apply Z.eqb_neq in Hb. eapply IH; [|done]. eauto.
Qed.

(** Simple invariants: preserved by every merge step. *)
Lemma train_invariant (P : Tokenizer → Prop) :
  (∀ self top, P self → get_most_common (tcounts self) = Some top →
     frequency top ≠ 1 → P (merge_step self top)) →
  ∀ fuel self self', P self → train fuel self = Ok self' → P self'.
Proof. intros Hstep. apply train_rule; eauto. Qed.

Lemma merge_step_stream self top :
  encoded_tokens (merge_step self top)
  = greedy_replace (first_token top) (second_token top) (mint_token self) (encoded_tokens self).
Proof. apply swap_rewrite_greedy. Qed.

Lemma merge_step_coherent self top : coherent (merge_step self top).
Proof. done. Qed.

Lemma merge_step_mint_in self top :
  coherent self → get_most_common (tcounts self) = Some top →
  mint_token self ∈ encoded_tokens (merge_step self top).
Proof.
  intros Hc Hget. rewrite Hc in Hget.
  apply most_common_occurs in Hget as (Hin & _).
  rewrite merge_step_stream. by apply greedy_mint_in.
Qed.

Lemma merge_step_length self top :
  coherent self → get_most_common (tcounts self) = Some top → frequency top ≠ 1 →
  (2 ≤ length (encoded_tokens (merge_step self top)) < length (encoded_tokens self))%nat.
Proof.
  intros Hc Hget Hf. rewrite Hc in Hget.
  apply most_common_occurs in Hget as (Hin & Hocc & Hpos).
  rewrite merge_step_stream.
  pose proof (greedy_length (first_token top) (second_token top) (mint_token self)
                (encoded_tokens self)) as [Hlen Hhalf].
  pose proof (greedy_merges_pos _ _ _ Hin) as Hm.
  pose proof (occ_le_length (_key top) (adjacent (encoded_tokens self))) as Hle.
  rewrite adjacent_length in Hle. lia.
Qed.

Lemma merge_step_max self top :
  coherent self → get_most_common (tcounts self) = Some top →
  ∃ m, py_max Z.ltb (encoded_tokens (merge_step self top)) = Some m ∧ mint_token self ≤ m
       ∧ m ∈ encoded_tokens (merge_step self top).
Proof.
  intros Hc Hget. pose proof (merge_step_mint_in _ _ Hc Hget) as Hin.
  destruct (py_max_Z (encoded_tokens (merge_step self top))) as (m & Hm & Hmin & Hmax).
  { intros Hnil. rewrite Hnil in Hin. by apply elem_of_nil in Hin. }
  exists m. split_and!; [done| |done]. by apply Hmax.
Qed.

(** [train] returns on every coherent state with at least two symbols:
    each repetition shortens the stream. *)
Lemma train_terminates fuel self :
  coherent self →
  (2 ≤ length (encoded_tokens self) ≤ fuel + 2)%nat →
  ∃ self', train fuel self = Ok self'.
Proof.
  revert self. induction fuel as [|fuel IH]; intros self Hc Hlen; simpl.
  all: unfold swap_top.
  all: destruct (get_most_common (tcounts self)) as [top|] eqn:Hget;
    [|exfalso; rewrite Hc in Hget;
      pose proof (count_nonempty (encoded_tokens self) ltac:(lia)) as Hne;
      destruct (count (encoded_tokens self)); [done|discriminate]].
  all: destruct (Z.eqb_spec (frequency top) 1) as [Hf|Hf]; [by eexists|].
  all: destruct (merge_step_max _ _ Hc Hget) as (m & -> & _).
  all: pose proof (merge_step_length _ _ Hc Hget Hf) as Hl.
  all: destruct (m + 1 =? _); [by eexists|].
  - lia.
  - apply IH; [done|lia].
Qed.

(** More fuel does not change a result. *)
Lemma train_fuel_mono fuel fuel' self self' :
  train fuel self = Ok self' → (fuel ≤ fuel')%nat → train fuel' self = Ok self'.
Proof.
  revert fuel' self. induction fuel as [|fuel IH]; intros fuel' self; simpl;
    destruct (swap_top self) as [[[] s1]| |] eqn:Hs; try done.
  - destruct fuel'; simpl; by rewrite Hs.
  - destruct fuel'; simpl; by rewrite Hs.
  - intros Ht Hle. destruct fuel' as [|fuel']; [lia|]. simpl. rewrite Hs.
    apply IH; [done|lia].
Qed.

Lemma adjacent_elem l a b : (a, b) ∈ adjacent l → a ∈ l ∧ b ∈ l.
Proof.
  induction l as [|x [|y l] IH]; [by intros ?%elem_of_nil..|].
  intros [[= -> ->]|Hin]%elem_of_cons; [set_solver|].
  destruct (IH Hin). set_solver.
Qed.

Lemma tables_ok_init tokens v : tables_ok (init tokens v).
Proof. split_and!; [done|intros ???|intros ???]; simpl in *; by simplify_map_eq. Qed.

Lemma tables_ok_step self top : tables_ok self → tables_ok (merge_step self top).
Proof.
  intros (Hmint & Hdm & Hem). split_and!; simpl.
  - lia.
  - intros k tp. destruct (decide (mint_token self = k)) as [<-|Hk].
    + rewrite lookup_insert_eq. lia.
    + rewrite lookup_insert_ne by done. intros ?%Hdm. lia.
  - intros p m. destruct (decide (_key top = p)) as [<-|Hp].
    + rewrite lookup_insert_eq. intros [= <-]. split; [lia|].
      rewrite lookup_insert_eq. exists (frequency top). by destruct top.
    + rewrite lookup_insert_ne by done. intros (Hm & f & Hf)%Hem. split; [lia|].
      exists f. rewrite lookup_insert_ne; [done|lia].
Qed.

Lemma train_tables_ok fuel tokens v self :
  train fuel (init tokens v) = Ok self → tables_ok self.
Proof.
  apply (train_invariant tables_ok); [|apply tables_ok_init].
  intros ? ? ? _ _. by apply tables_ok_step.
Qed.

(** A trained encoding map has no entry with a falsy value. *)
Lemma train_encoding_map_nonzero fuel tokens v self p t :
  train fuel (init tokens v) = Ok self → encoding_map self !! p = Some t → t ≠ 0.
Proof.
  intros (_ & _ & Hem)%train_tables_ok Hp. destruct (Hem p t Hp) as [? _]. lia.
Qed.

Lemma below_mint_init tokens v : raw tokens → below_mint (init tokens v).
Proof.
  intros Hraw. split_and!; [done| |by intros ???; simplify_map_eq].
  intros s Hs. simpl in *. unfold raw in Hraw. rewrite Forall_forall in Hraw.
  specialize (Hraw s Hs). lia.
Qed.

Lemma below_mint_step self top :
  below_mint self → get_most_common (tcounts self) = Some top →
  below_mint (merge_step self top).
Proof.
  intros (Hc & Hlt & Hdec) Hget. split_and!; [done| |].
  - intros s. rewrite merge_step_stream. simpl.
    intros [->|Hs%Hlt]%greedy_elem; lia.
  - intros k tp. simpl. destruct (decide (mint_token self = k)) as [<-|Hk].
    + rewrite lookup_insert_eq. intros [= <-].
      rewrite Hc in Hget. apply most_common_occurs in Hget as (Hin & _).
      apply adjacent_elem in Hin as [Ha Hb]. split; by apply Hlt.
    + rewrite lookup_insert_ne by done. apply Hdec.
Qed.

Lemma train_decreasing fuel tokens v self :
  raw tokens → train fuel (init tokens v) = Ok self → decreasing (decoding_map self).
Proof.
  intros Hraw Ht.
  cut (below_mint self); [by intros (_ & _ & ?)|].
  revert Ht. apply (train_invariant below_mint); [|by apply below_mint_init].
  intros ? ? ? ? _. by apply below_mint_step.
Qed.

Lemma merge_step_max_raw self top m :
  below_mint self → get_most_common (tcounts self) = Some top →
  py_max Z.ltb (encoded_tokens (merge_step self top)) = Some m → m = mint_token self.
Proof.
  intros Hb Hget Hm. pose proof Hb as (Hc & _).
  destruct (merge_step_max _ _ Hc Hget) as (m' & Hm' & Hge & Hin).
  rewrite Hm in Hm'. injection Hm' as <-.
  destruct (below_mint_step _ _ Hb Hget) as (_ & Hlt & _).
  specialize (Hlt m Hin). simpl in Hlt. lia.
Qed.

Lemma vocab_size_bound (dm : gmap Z TokenPair) v :
  256 ≤ v → (∀ k tp, dm !! k = Some tp → k < v) → vocab_size dm ≤ v.
Proof.
  intros Hv Hk. unfold vocab_size.
  assert (∀ k, k ∈ map fst (map_to_list dm) → k < v) as Hkeys.
  { intros k Hin. change (k ∈ fst <$> map_to_list dm) in Hin.
    apply list_elem_of_fmap in Hin as ([k' tp] & -> & Hin).
    apply elem_of_map_to_list in Hin. by apply (Hk k' tp). }
  induction (map fst (map_to_list dm)) as [|k l IH]; simpl; [lia|].
  assert (k < v) by (apply Hkeys; left).
  assert (foldr Z.max 255 l + 1 ≤ v) by (apply IH; intros; apply Hkeys; by right).
  lia.
Qed.

Lemma vocab_size_key (dm : gmap Z TokenPair) k tp :
  dm !! k = Some tp → k + 1 ≤ vocab_size dm.
Proof.
  intros Hk. unfold vocab_size.
  assert (k ∈ map fst (map_to_list dm)) as Hin.
  { change (k ∈ fst <$> map_to_list dm). apply list_elem_of_fmap.
    exists (k, tp). split; [done|]. by apply elem_of_map_to_list. }
  induction (map fst (map_to_list dm)) as [|k' l IH]; [by apply elem_of_nil in Hin|].
  simpl. apply elem_of_cons in Hin as [->|Hin]; [lia|]. specialize (IH Hin). lia.
Qed.

Lemma train_unfold fuel self :
  train fuel self =
  match swap_top self with
  | Raise e => Raise e
  | OutOfFuel => OutOfFuel
  | Ok (true, self') => Ok self'
  | Ok (false, self') =>
      match fuel with O => OutOfFuel | S fuel' => train fuel' self' end
  end.
Proof. by destruct fuel. Qed.

(** C5: when the selected pair has count above 1, [swap_top] rewrites the
    stream by the single left-to-right greedy pass (a match at i, i+1 emits
    the new symbol and scanning resumes at i+2, so "aaa" with pair (a,a)
    becomes [mint; a]), keeps the unmatched symbols in order (undoing the
    merge gives the old stream back), and records the merge in both maps. *)
Theorem swap_top_greedy_merge (self : Tokenizer) (top : TokenPair) :
  coherent self →
  get_most_common (tcounts self) = Some top →
  1 < frequency top →
  ∃ finished self',
    swap_top self = Ok (finished, self')
    ∧ encoded_tokens self'
      = greedy_replace (first_token top) (second_token top) (mint_token self)
          (encoded_tokens self)
    ∧ (∀ a, swap_rewrite a a (mint_token self) [a; a; a] = [mint_token self; a])
    ∧ (mint_token self ∉ encoded_tokens self →
       unmerge (first_token top) (second_token top) (mint_token self) (encoded_tokens self')
       = encoded_tokens self)
    ∧ decoding_map self' !! mint_token self = Some top
    ∧ encoding_map self' !! (first_token top, second_token top) = Some (mint_token self)
    ∧ tcounts self' = count (encoded_tokens self')
    ∧ mint_token self' = mint_token self + 1.
Proof.
  intros Hc Hget Hf. unfold swap_top. rewrite Hget.
  destruct (Z.eqb_spec (frequency top) 1) as [?|_]; [lia|].
  destruct (merge_step_max _ _ Hc Hget) as (m & -> & _).
  eexists _, _. split; [done|].
  split_and!; [apply merge_step_stream| | | | |done|done].
  - intros a. rewrite swap_rewrite_greedy. simpl. by rewrite decide_True.
  - rewrite merge_step_stream. apply unmerge_greedy.
  - apply lookup_insert_eq.
  - apply (lookup_insert_eq (encoding_map self)).
Qed.

Lemma swap_top_greedy_merge_witness :
  ∃ finished self',
    swap_top (init aaa 276) = Ok (finished, self')
    ∧ encoded_tokens self' = greedy_replace 97 97 256 aaa
    ∧ (∀ a, swap_rewrite a a 256 [a; a; a] = [256; a])
    ∧ (256 ∉ aaa → unmerge 97 97 256 (encoded_tokens self') = aaa)
    ∧ decoding_map self' !! 256 = Some (mkTokenPair 97 97 2)
    ∧ encoding_map self' !! (97, 97) = Some 256
    ∧ tcounts self' = count (encoded_tokens self')
    ∧ mint_token self' = 256 + 1.
Proof.
  apply (swap_top_greedy_merge (init aaa 276) (mkTokenPair 97 97 2));
    [reflexivity|reflexivity|simpl; lia].
Defined.

(** In a run of four equal symbols the pairs at positions 0 and 2 merge;
    the overlapping occurrence at position 1 does not. *)
Example greedy_aaaa : swap_rewrite 97 97 256 [97; 97; 97; 97] = [256; 256].
Proof. reflexivity. Qed.

(** C6: a call of [swap_top] reports "finished" exactly when the most
    frequent pair has count 1 or, after the merge step, the largest symbol
    of the stream plus one equals the target vocabulary size; [train]
    returns on "finished" and otherwise goes on with the next merge step. *)
Theorem train_done_iff (self self' : Tokenizer) (finished : bool) :
  swap_top self = Ok (finished, self') →
  ∃ top,
    get_most_common (tcounts self) = Some top
    ∧ (finished = true ↔
         frequency top = 1
         ∨ ∃ m, py_max Z.ltb (encoded_tokens (merge_step self top)) = Some m
                ∧ m + 1 = encoding_vocab_size self)
    ∧ (finished = true → ∀ fuel, train fuel self = Ok self')
    ∧ (finished = false →
         frequency top ≠ 1 ∧ self' = merge_step self top
         ∧ ∀ fuel, train (S fuel) self = train fuel self').
Proof.
  intros Hs. pose proof Hs as Hinv.
  apply swap_top_inv in Hinv as (top & Hget & [(Hf & -> & ->)|(Hf & -> & m & Hm & ->)]).
  - exists top. split_and!; [done| | |done].
    + split; [by left|done].
    + intros _ fuel. by rewrite train_unfold, Hs.
  - exists top. split_and!; [done| | |].
    + rewrite Z.eqb_eq. split.
      * intros Hv. right. by exists m.
      * intros [?|(m' & Hm' & Hv)]; [done|]. rewrite Hm in Hm'. by injection Hm' as <-.
    + intros Hb fuel. by rewrite train_unfold, Hs, Hb.
    + intros Hb. split_and!; [done..|]. intros fuel. simpl. by rewrite Hs, Hb.
Qed.

Lemma train_done_iff_witness :
  ∃ top,
    get_most_common (tcounts (init aaa 276)) = Some top
    ∧ (false = true ↔
         frequency top = 1
         ∨ ∃ m, py_max Z.ltb (encoded_tokens (merge_step (init aaa 276) top)) = Some m
                ∧ m + 1 = encoding_vocab_size (init aaa 276))
    ∧ (false = true →
       ∀ fuel, train fuel (init aaa 276)
               = Ok (merge_step (init aaa 276) (mkTokenPair 97 97 2)))
    ∧ (false = false →
         frequency top ≠ 1
         ∧ merge_step (init aaa 276) (mkTokenPair 97 97 2) = merge_step (init aaa 276) top
         ∧ ∀ fuel, train (S fuel) (init aaa 276)
                   = train fuel (merge_step (init aaa 276) (mkTokenPair 97 97 2))).
Proof.
  apply (train_done_iff (init aaa 276) (merge_step (init aaa 276) (mkTokenPair 97 97 2)) false).
  vm_compute. reflexivity.
Defined.

(** C9: training is a function of the input and the target vocabulary size:
    two completed runs end in the same state, so in particular in the same
    [encoding_map] and [decoding_map]. *)
Theorem train_deterministic (tokens : list Z) (v : Z) (fuel1 fuel2 : nat)
    (self1 self2 : Tokenizer) :
  train fuel1 (init tokens v) = Ok self1 →
  train fuel2 (init tokens v) = Ok self2 →
  encoding_map self1 = encoding_map self2 ∧ decoding_map self1 = decoding_map self2.
Proof.
  intros H1 H2. destruct (Nat.le_ge_cases fuel1 fuel2) as [Hle|Hle].
  - rewrite (train_fuel_mono _ _ _ _ H1 Hle) in H2. by injection H2 as <-.
  - rewrite (train_fuel_mono _ _ _ _ H2 Hle) in H1. by injection H1 as <-.
Qed.

Lemma train_deterministic_witness :
  encoding_map (merge_step (init aaa 276) (mkTokenPair 97 97 2))
  = encoding_map (merge_step (init aaa 276) (mkTokenPair 97 97 2))
  ∧ decoding_map (merge_step (init aaa 276) (mkTokenPair 97 97 2))
    = decoding_map (merge_step (init aaa 276) (mkTokenPair 97 97 2)).
Proof.
  apply (train_deterministic aaa 276 1 5); vm_compute; reflexivity.
Defined.

(** ** The encode pass *)

Lemma encode_pass_finish em toks :
  encode_pass em toks = encode_finish toks (encode_scan em toks 0 true []).
Proof.
  unfold encode_pass, encode_finish. by destruct (encode_scan _ _ _ _ _) as [[??]?].
Qed.

Lemma merge_scan_cons em x y rest :
  merge_scan em (x :: y :: rest)
  = match em !! (x, y) with
    | Some t =>
        if truthy t then (false, t :: (merge_scan em rest).2)
        else ((merge_scan em (y :: rest)).1, x :: (merge_scan em (y :: rest)).2)
    | None => ((merge_scan em (y :: rest)).1, x :: (merge_scan em (y :: rest)).2)
    end.
Proof. done. Qed.

Local Ltac scan_step IH :=
  rewrite IH; clear IH;
  match goal with
  | HB : ?l !! (?i + 1)%nat = Some _, HA : ?l !! ?i = Some _ |- _ =>
      rewrite (drop_two _ _ _ _ HA HB); try rewrite (drop_S _ _ _ HB);
      try replace (S (i + 1)) with (i + 2)%nat by lia
  end;
  rewrite merge_scan_cons;
  unfold _key in *; cbn [first_token second_token] in *;
  repeat match goal with
    | H : @lookup _ _ (gmap _ _) _ _ _ = _ |- _ => rewrite H; clear H
    | H : truthy _ = _ |- _ => rewrite H; clear H
    end;
  cbn [fst snd]; by rewrite <- app_assoc, ?andb_false_r.

Lemma encode_scan_merge em toks idx encoded acc :
  encode_finish toks (encode_scan em toks idx encoded acc)
  = (encoded && (merge_scan em (drop idx toks)).1, acc ++ (merge_scan em (drop idx toks)).2).
Proof.
  funelim (encode_scan em toks idx encoded acc).
  4-6: scan_step H.
  - unfold encode_finish; simpl.
    destruct (toks !! idx) as [last|] eqn:Hl.
    + rewrite (drop_S _ _ _ Hl), drop_ge; [by rewrite andb_true_r|].
      apply lookup_lt_Some in Hl. lia.
    + apply lookup_ge_None in Hl. by rewrite drop_ge, app_nil_r, andb_true_r.
  - match goal with H : _ !! _ = None |- _ => apply lookup_ge_None in H; lia end.
  - match goal with H : _ !! _ = None |- _ => apply lookup_ge_None in H; lia end.
Qed.

(** The index loop of [encode] computes [merge_scan]. *)
Lemma encode_pass_merge em toks : encode_pass em toks = merge_scan em toks.
Proof.
  rewrite encode_pass_finish, encode_scan_merge, drop_0.
  by destruct (merge_scan em toks).
Qed.

Lemma merge_scan_length em l :
  (length (merge_scan em l).2 ≤ length l)%nat
  ∧ ((merge_scan em l).1 = false → (length (merge_scan em l).2 < length l)%nat).
Proof.
  induction l as [l IH] using (induction_ltof1 _ (@length Z)); unfold ltof in IH.
  destruct l as [|x [|y rest]]; [done..|].
  rewrite merge_scan_cons.
  destruct (IH rest) as [Hr _]; [simpl; lia|].
  destruct (IH (y :: rest)) as [Hy Hy']; [simpl; lia|].
  destruct (em !! (x, y)) as [t|]; [destruct (truthy t)|];
    cbn [fst snd length] in *; (split; [lia|intros Hf; try specialize (Hy' Hf); lia]).
Qed.

(** A pass that reports no merge leaves the sequence as it is, and no
    adjacent pair of it has a truthy entry in the map. *)
Lemma merge_scan_fixed em l :
  (merge_scan em l).1 = true →
  (merge_scan em l).2 = l
  ∧ ∀ p, p ∈ adjacent l → em !! p = None ∨ em !! p = Some 0.
Proof.
  induction l as [|x l IH]; [by split; [|intros ??%elem_of_nil]|].
  destruct l as [|y rest]; [by split; [|intros ??%elem_of_nil]|].
  rewrite merge_scan_cons.
  destruct (em !! (x, y)) as [t|] eqn:Hxy; [destruct (truthy t) eqn:Ht|];
    cbn [fst snd]; [done| |].
  all: intros [Heq Hadj]%IH; rewrite Heq; split; [done|].
  all: change (adjacent (x :: y :: rest)) with ((x, y) :: adjacent (y :: rest)).
  all: intros p [->|Hp]%elem_of_cons; [|by apply Hadj].
  - right. rewrite Hxy. unfold truthy in Ht. apply negb_false_iff, Z.eqb_eq in Ht. by subst.
  - by left.
Qed.

Lemma encode_unfold fuel em l :
  encode fuel em l =
  if (merge_scan em l).1 then Some (merge_scan em l).2
  else match fuel with O => None | S fuel' => encode fuel' em (merge_scan em l).2 end.
Proof. destruct fuel; simpl; rewrite encode_pass_merge; by destruct (merge_scan em l). Qed.

(** [encode] returns: every pass but the last shortens the sequence. *)
Lemma encode_terminates fuel em l :
  (length l ≤ fuel)%nat → ∃ out, encode fuel em l = Some out.
Proof.
  revert l. induction fuel as [|fuel IH]; intros l Hlen; rewrite encode_unfold.
  all: destruct (merge_scan_length em l) as [Hle Hlt].
  all: destruct (merge_scan em l).1; [by eexists|].
  - specialize (Hlt eq_refl). lia.
  - apply IH. specialize (Hlt eq_refl). lia.
Qed.

(** The value returned by [encode] is left unchanged by one more pass. *)
Lemma encode_fixed fuel em l out :
  encode fuel em l = Some out → merge_scan em out = (true, out).
Proof.
  revert l. induction fuel as [|fuel IH]; intros l; rewrite encode_unfold.
  all: destruct (merge_scan em l) as [[] l'] eqn:Hms; cbn [fst snd]; try done;
    try (by apply IH).
  all: intros [= <-]; pose proof (merge_scan_fixed em l) as Hfix.
  all: rewrite Hms in Hfix; destruct (Hfix eq_refl) as [Heq _]; simpl in Heq; subst l'.
  all: done.
Qed.

(** ** The decode pass *)

Lemma decode_pass_fold dm ts decoded acc :
  fold_left
    (λ '(decoded, decoded_tokens) token,
       match dm !! token with
       | Some tp => (false, decoded_tokens ++ [first_token tp; second_token tp])
       | None => (decoded, decoded_tokens ++ [token])
       end) ts (decoded, acc)
  = (decoded && forallb (λ s, bool_decide (dm !! s = None)) ts,
     acc ++ flat_map (expand1 dm) ts).
Proof.
  revert decoded acc. induction ts as [|s ts IH]; intros decoded acc; simpl.
  - by rewrite andb_true_r, app_nil_r.
  - unfold expand1 at 1. destruct (dm !! s) as [tp|] eqn:Hs; rewrite IH.
    + rewrite bool_decide_eq_false_2 by done. simpl.
      by rewrite andb_false_r, <- app_assoc.
    + rewrite bool_decide_eq_true_2 by done. simpl. by rewrite <- app_assoc.
Qed.

Lemma decode_pass_spec dm ts :
  decode_pass dm ts
  = (forallb (λ s, bool_decide (dm !! s = None)) ts, flat_map (expand1 dm) ts).
Proof. unfold decode_pass. by rewrite decode_pass_fold. Qed.

Lemma decode_pass_done dm ts :
  (decode_pass dm ts).1 = true ↔ ∀ s, s ∈ ts → dm !! s = None.
Proof.
  rewrite decode_pass_spec. simpl. rewrite forallb_forall. split.
  - intros H s Hs%list_elem_of_In. specialize (H s Hs). by apply bool_decide_eq_true in H.
  - intros H s Hs%list_elem_of_In. apply bool_decide_eq_true. by apply H.
Qed.

Lemma decode_pass_id dm ts :
  (∀ s, s ∈ ts → dm !! s = None) → (decode_pass dm ts).2 = ts.
Proof.
  rewrite decode_pass_spec. simpl. induction ts as [|s ts IH]; [done|].
  intros Hn. simpl. unfold expand1 at 1. rewrite (Hn s) by left. simpl.
  f_equal. apply IH. intros s' Hs'. apply Hn. by right.
Qed.

Lemma decode_unfold fuel dm ts :
  decode fuel dm ts =
  if (decode_pass dm ts).1 then Some (decode_pass dm ts).2
  else match fuel with O => None | S fuel' => decode fuel' dm (decode_pass dm ts).2 end.
Proof. destruct fuel; simpl; by destruct (decode_pass dm ts). Qed.

(** ** Short inputs *)

Lemma count_short ts : (length ts < 2)%nat → count ts = [].
Proof. destruct ts as [|a [|b ts]]; simpl; [done..|lia]. Qed.

(** Training on a single symbol does not complete: the frequency table is
    empty and [max] over it raises [ValueError]. *)
Lemma train_short_input_raises :
  train 0 (init [97] 276) = Raise ValueError
  ∧ ¬ ∃ fuel self, train fuel (init [97] 276) = Ok self.
Proof.
  split; [reflexivity|]. intros (fuel & self & Ht).
  rewrite train_unfold in Ht. discriminate Ht.
Qed.

(** C3 (amended): on an input of fewer than two symbols [encode] returns
    the input unchanged, and so does [decode] when no symbol of the input is
    a key of the decoding map; training on such an input raises
    [ValueError], because there is no pair to select. *)
Theorem short_input_passes (ts : list Z) (v : Z) (em : gmap (Z * Z) Z)
    (dm : gmap Z TokenPair) (fuel : nat) :
  (length ts < 2)%nat →
  train fuel (init ts v) = Raise ValueError
  ∧ encode fuel em ts = Some ts
  ∧ ((∀ s, s ∈ ts → dm !! s = None) → decode fuel dm ts = Some ts).
Proof.
  intros Hlen. split_and!.
  - rewrite train_unfold. unfold swap_top, init. simpl.
    by rewrite (count_short ts Hlen).
  - rewrite encode_unfold. by destruct ts as [|a [|b ts]]; [..|simpl in Hlen; lia].
  - intros Hn. rewrite decode_unfold.
    rewrite (proj2 (decode_pass_done dm ts) Hn). by rewrite decode_pass_id.
Qed.

Lemma short_input_passes_witness :
  train 0 (init [97] 276) = Raise ValueError
  ∧ encode 0 {[ (97, 97) := 256 ]} [97] = Some [97]
  ∧ ((∀ s, s ∈ [97] → ({[ 256 := mkTokenPair 97 97 2 ]} : gmap Z TokenPair) !! s = None) →
     decode 0 {[ 256 := mkTokenPair 97 97 2 ]} [97] = Some [97]).
Proof. apply (short_input_passes [97] 276). simpl. lia. Defined.

(** ** Target vocabulary size at most 256 *)

(** With target size 256, training on "aaa" still mints symbol 256. *)
Lemma small_vocab_still_mints :
  ∃ self, train 3 (init aaa 256) = Ok self
    ∧ decoding_map self !! 256 = Some (mkTokenPair 97 97 2)
    ∧ encoding_map self !! (97, 97) = Some 256
    ∧ encoded_tokens self = [256; 97].
Proof. eexists. split; [vm_compute; reflexivity|]. vm_compute. done. Qed.

(** C4 (amended): with a target vocabulary size of at most 256 the size test
    of [swap_top] never succeeds.  Training returns; it returns the initial
    state (no symbol minted, stream unchanged) when the most frequent pair
    of the input occurs once, and otherwise it mints symbol 256 for that
    pair and goes on merging until the most frequent pair of the stream
    occurs once. *)
Theorem train_small_vocab (tokens : list Z) (v : Z) :
  (2 ≤ length tokens)%nat → v ≤ 256 →
  ∃ self top0 top,
    train (length tokens) (init tokens v) = Ok self
    ∧ get_most_common (count tokens) = Some top0
    ∧ (frequency top0 = 1 → self = init tokens v)
    ∧ (frequency top0 ≠ 1 → decoding_map self !! 256 = Some top0)
    ∧ get_most_common (count (encoded_tokens self)) = Some top
    ∧ frequency top = 1.
Proof.
  intros Hlen Hv.
  destruct (train_terminates (length tokens) (init tokens v)) as [self Ht];
    [done|simpl; lia|].
  destruct (get_most_common (count tokens)) as [top0|] eqn:Hget0.
  2: { pose proof (count_nonempty tokens Hlen). by destruct (count tokens). }
  exists self, top0.
  cut ((∃ top, get_most_common (count (encoded_tokens self)) = Some top ∧ frequency top = 1)
       ∧ (frequency top0 = 1 → self = init tokens v)
       ∧ (frequency top0 ≠ 1 → decoding_map self !! 256 = Some top0)).
  { intros ((top & ? & ?) & ? & ?). by exists top. }
  revert Ht.
  apply (train_rule
           (λ s, coherent s ∧ 256 ≤ mint_token s ∧ encoding_vocab_size s = v
                 ∧ after_first_merge tokens v top0 s)
           (λ s, (∃ top, get_most_common (count (encoded_tokens s)) = Some top
                         ∧ frequency top = 1)
                 ∧ (frequency top0 = 1 → s = init tokens v)
                 ∧ (frequency top0 ≠ 1 → decoding_map s !! 256 = Some top0))).
  - intros s top (Hc & Hm & Hvs & Hafter) Hget Hf. split_and!.
    + exists top. by rewrite <- Hc.
    + intros Hf0. by destruct Hafter as [->|(? & _)].
    + intros Hf0. destruct Hafter as [->|(_ & _ & ?)]; [|done].
      simpl in Hget. rewrite Hget0 in Hget. by injection Hget as ->.
  - intros s top m (Hc & Hm & Hvs & _) Hget Hf Hmax Hstop.
    destruct (merge_step_max _ _ Hc Hget) as (m' & Hm' & Hge & _).
    rewrite Hmax in Hm'. injection Hm' as <-. lia.
  - intros s top m (Hc & Hm & Hvs & Hafter) Hget Hf Hmax _.
    split_and!; [done|simpl; lia|done|]. right.
    destruct Hafter as [->|(? & ? & ?)].
    + simpl in Hget. rewrite Hget0 in Hget. injection Hget as ->.
      split_and!; [done|simpl; lia|apply lookup_insert_eq].
    + split_and!; [done|simpl; lia|]. simpl. rewrite lookup_insert_ne; [done|lia].
  - split_and!; [done..|by left].
Qed.

Lemma train_small_vocab_witness :
  ∃ self top0 top,
    train (length aaa) (init aaa 256) = Ok self
    ∧ get_most_common (count aaa) = Some top0
    ∧ (frequency top0 = 1 → self = init aaa 256)
    ∧ (frequency top0 ≠ 1 → decoding_map self !! 256 = Some top0)
    ∧ get_most_common (count (encoded_tokens self)) = Some top
    ∧ frequency top = 1.
Proof. apply (train_small_vocab aaa 256); [simpl; lia|lia]. Defined.

(** ** The vocabulary bound *)

(** With target size 256, training on "aaa" ends with key 256 in the
    decoding map, so the vocabulary size is 257; and on an input that holds
    the symbol 300 the size test never succeeds either, so with target size
    257 two symbols are minted and the vocabulary size is 258. *)
Lemma vocab_bound_exceeded :
  (∃ self, train 3 (init aaa 256) = Ok self
     ∧ vocab_size (decoding_map self) = 257
     ∧ ¬ vocab_size (decoding_map self) ≤ encoding_vocab_size self)
  ∧ (∃ self, train 9 (init [300; 1; 1; 1; 1; 2; 2; 2; 2] 257) = Ok self
       ∧ vocab_size (decoding_map self) = 258
       ∧ ¬ vocab_size (decoding_map self) ≤ encoding_vocab_size self).
Proof.
  split; (eexists; split; [vm_compute; reflexivity|]); vm_compute; (split; [done|]);
    by intros H.
Qed.

(** C8 (amended): after training on raw input (symbols 0..255) with a target
    vocabulary size above 256, [max(decode_map.keys() ∪ {255}) + 1] is at
    most the target vocabulary size. *)
Theorem vocab_bound_raw (tokens : list Z) (v : Z) (fuel : nat) (self : Tokenizer) :
  raw tokens → 256 < v →
  train fuel (init tokens v) = Ok self →
  vocab_size (decoding_map self) ≤ v.
Proof.
  intros Hraw Hv Ht. apply vocab_size_bound; [lia|]. revert Ht.
  apply (train_rule
           (λ s, below_mint s ∧ tables_ok s ∧ mint_token s < v ∧ encoding_vocab_size s = v)
           (λ s, ∀ k tp, decoding_map s !! k = Some tp → k < v)).
  - intros s top (_ & (_ & Hk & _) & Hlt & _) _ _ k tp Hin.
    specialize (Hk k tp Hin). lia.
  - intros s top m (Hb & Hok & Hlt & Hvs) Hget _ Hmax Hstop k tp.
    pose proof (merge_step_max_raw _ _ _ Hb Hget Hmax) as ->.
    destruct (tables_ok_step s top Hok) as (_ & Hk & _).
    intros Hin. specialize (Hk k tp Hin). simpl in Hk. lia.
  - intros s top m (Hb & Hok & Hlt & Hvs) Hget _ Hmax Hstop.
    pose proof (merge_step_max_raw _ _ _ Hb Hget Hmax) as ->.
    split_and!; [by apply below_mint_step|by apply tables_ok_step|simpl; lia|done].
  - split_and!; [by apply below_mint_init|apply tables_ok_init|simpl; lia|done].
Qed.

Lemma vocab_bound_raw_witness :
  vocab_size
    (decoding_map
       (merge_step (merge_step (init aaabdaaabac 258) (mkTokenPair 97 97 4))
          (mkTokenPair 256 97 2))) ≤ 258.
Proof.
  apply (vocab_bound_raw aaabdaaabac 258 11).
  - unfold raw, aaabdaaabac. repeat constructor; lia.
  - lia.
  - vm_compute. reflexivity.
Defined.

(** ** Fixed point of encode *)

(** Remark on [if encoded_token:]: an entry with value 0 would never be
    applied.  The code never writes such an entry: the only assignment to
    [encoding_map] stores [mint_token], which starts at 256 (see
    [train_encoding_map_nonzero]). *)
Lemma encode_zero_entry :
  encode 2 {[ (1, 2) := 0 ]} [1; 2] = Some [1; 2]
  ∧ (1, 2) ∈ adjacent [1; 2]
  ∧ ({[ (1, 2) := 0 ]} : gmap (Z * Z) Z) !! (1, 2) = Some 0.
Proof. split_and!; [vm_compute; reflexivity|left|done]. Qed.

(** When no entry of the encoding map has value 0, [encode] returns, and no
    adjacent pair of the returned sequence is a key of the map. *)
Lemma encode_fixed_nonzero (em : gmap (Z * Z) Z) (ts : list Z) :
  (∀ p t, em !! p = Some t → t ≠ 0) →
  (∃ out, encode (length ts) em ts = Some out)
  ∧ ∀ fuel out, encode fuel em ts = Some out →
      ∀ p, p ∈ adjacent out → em !! p = None.
Proof.
  intros Hnz. split; [by apply encode_terminates|].
  intros fuel out Henc%encode_fixed p Hp.
  destruct (merge_scan_fixed em out) as [_ Hadj]; [by rewrite Henc|].
  destruct (Hadj p Hp) as [?|H0]; [done|]. by apply Hnz in H0.
Qed.

(** C10: for every input sequence and every encoding map produced by
    training, [encode] returns, and its output is a fixed point of merging:
    no adjacent pair (output[i], output[i+1]) of the returned sequence is a
    key of the encoding map. *)
Theorem encode_fixed_point (tokens : list Z) (v : Z) (fuel : nat) (self : Tokenizer)
    (ts : list Z) :
  train fuel (init tokens v) = Ok self →
  (∃ out, encode (length ts) (encoding_map self) ts = Some out)
  ∧ ∀ fuel' out, encode fuel' (encoding_map self) ts = Some out →
      ∀ p, p ∈ adjacent out → encoding_map self !! p = None.
Proof.
  intros Ht. apply encode_fixed_nonzero.
  intros p t. by apply (train_encoding_map_nonzero fuel tokens v).
Qed.

Lemma encode_fixed_point_witness :
  (∃ out,
     encode (length aaabdaaabac)
       (encoding_map
          (merge_step (merge_step (init aaabdaaabac 258) (mkTokenPair 97 97 4))
             (mkTokenPair 256 97 2))) aaabdaaabac = Some out)
  ∧ ∀ fuel' out,
      encode fuel'
        (encoding_map
           (merge_step (merge_step (init aaabdaaabac 258) (mkTokenPair 97 97 4))
              (mkTokenPair 256 97 2))) aaabdaaabac = Some out →
      ∀ p, p ∈ adjacent out →
        encoding_map
          (merge_step (merge_step (init aaabdaaabac 258) (mkTokenPair 97 97 4))
             (mkTokenPair 256 97 2)) !! p = None.
Proof.
  apply (encode_fixed_point aaabdaaabac 258 11). vm_compute. reflexivity.
Defined.

(** ** Unfolding of symbols through the decoding map *)

Lemma expands_weaken dm h h' s l : expands dm h s l → (h ≤ h')%nat → expands dm h' s l.
Proof.
  intros Hex. revert h'. induction Hex as [h s Hs|h s tp la lb Hs _ IHa _ IHb]; intros h' Hle.
  - by apply expands_leaf.
  - destruct h' as [|h']; [lia|].
    eapply expands_node; [done|apply IHa; lia|apply IHb; lia].
Qed.

Lemma expands_list_weaken dm h h' ts ls :
  Forall2 (expands dm h) ts ls → (h ≤ h')%nat → Forall2 (expands dm h') ts ls.
Proof. intros HF Hle. eapply Forall2_impl; [done|]. intros s l ?. by eapply expands_weaken. Qed.

(** Symbols that are no keys unfold to themselves. *)
Lemma expands_leaves dm h ts ls :
  (∀ s, s ∈ ts → dm !! s = None) → Forall2 (expands dm h) ts ls → concat ls = ts.
Proof.
  intros Hn HF. induction HF as [|s l ts ls Hex HF IH]; [done|].
  simpl. rewrite IH by (intros s' ?; apply Hn; by right).
  destruct Hex as [h s Hs|h s tp la lb Hs _ _]; [done|].
  rewrite (Hn s) in Hs by left. done.
Qed.

Lemma leaves_expand dm h ts :
  (∀ s, s ∈ ts → dm !! s = None) → Forall2 (expands dm h) ts (map (λ s, [s]) ts).
Proof.
  induction ts as [|s ts IH]; intros Hn; simpl; constructor.
  - apply expands_leaf, Hn. left.
  - apply IH. intros s' ?. apply Hn. by right.
Qed.

Lemma concat_singletons (ts : list Z) : concat (map (λ s, [s]) ts) = ts.
Proof. induction ts as [|s ts IH]; simpl; by rewrite ?IH. Qed.

(** One decode pass lowers the height of every unfolding by one. *)
Lemma decode_pass_expands dm h ts ls :
  Forall2 (expands dm (S h)) ts ls →
  ∃ ls', Forall2 (expands dm h) (decode_pass dm ts).2 ls' ∧ concat ls' = concat ls.
Proof.
  rewrite decode_pass_spec. simpl.
  intros HF. induction HF as [|s l ts ls Hex HF (ls' & HF' & Hc)]; [by exists []|].
  simpl. unfold expand1 at 1. inversion Hex as [h' s' Hs|h' s' tp la lb Hs Ha Hb]; subst.
  - rewrite Hs. exists ([s] :: ls'). split; [|simpl; by rewrite Hc].
    constructor; [by apply expands_leaf|done].
  - rewrite Hs. exists (la :: lb :: ls'). split; [|simpl; by rewrite Hc, app_assoc].
    by repeat constructor.
Qed.

(** [decode] returns the concatenated unfoldings once the fuel covers their
    height. *)
Lemma decode_expands dm h ts ls fuel :
  Forall2 (expands dm h) ts ls → (h ≤ fuel)%nat → decode fuel dm ts = Some (concat ls).
Proof.
  revert ts ls fuel. induction h as [|h IH]; intros ts ls fuel HF Hle.
  - assert (∀ s, s ∈ ts → dm !! s = None) as Hn.
    { intros s Hs. apply (list_elem_of_lookup_1 ts) in Hs as [i Hi].
      destruct (Forall2_lookup_l _ _ _ _ _ HF Hi) as (l & _ & Hex).
      by inversion Hex. }
    rewrite decode_unfold, (proj2 (decode_pass_done dm ts) Hn), decode_pass_id by done.
    by rewrite (expands_leaves _ _ _ _ Hn HF).
  - rewrite decode_unfold. destruct (decode_pass dm ts).1 eqn:Hflag.
    + pose proof (proj1 (decode_pass_done dm ts) Hflag) as Hn.
      by rewrite decode_pass_id, (expands_leaves _ _ _ _ Hn HF).
    + destruct fuel as [|fuel]; [lia|].
      destruct (decode_pass_expands _ _ _ _ HF) as (ls' & HF' & <-).
      apply IH; [done|lia].
Qed.

(** One encode pass raises the height of the unfoldings by at most one and
    keeps their concatenation, when every applied entry of the encoding map
    is mirrored in the decoding map. *)
Lemma merge_scan_expands em dm h l ls :
  (∀ p t, em !! p = Some t → ∃ f, dm !! t = Some (mkTokenPair p.1 p.2 f)) →
  Forall2 (expands dm h) l ls →
  ∃ ls', Forall2 (expands dm (S h)) (merge_scan em l).2 ls' ∧ concat ls' = concat ls.
Proof.
  intros Hem. revert ls.
  induction l as [l IH] using (induction_ltof1 _ (@length Z)); unfold ltof in IH.
  intros ls HF. destruct l as [|x [|y rest]].
  - inversion HF; subst. by exists [].
  - exists ls. split; [|done]. simpl. eapply expands_list_weaken; [done|lia].
  - rewrite merge_scan_cons.
    inversion HF as [|? lx ? ls1 Hx HF1]; subst.
    assert (∃ lsy, Forall2 (expands dm (S h)) (merge_scan em (y :: rest)).2 lsy
                   ∧ concat lsy = concat ls1) as (lsy & HFy & Hcy)
      by (apply IH; [simpl; lia|done]).
    assert (∃ ls', Forall2 (expands dm (S h)) (x :: (merge_scan em (y :: rest)).2) ls'
                   ∧ concat ls' = concat (lx :: ls1)) as Hkeep.
    { exists (lx :: lsy). split; [|simpl; by rewrite Hcy].
      constructor; [|done]. eapply expands_weaken; [done|lia]. }
    destruct (em !! (x, y)) as [t|] eqn:Hxy; [destruct (truthy t)|]; cbn [fst snd]; [|done..].
    inversion HF1 as [|? ly ? ls2 Hy HF2]; subst.
    destruct (IH rest ltac:(simpl; lia) ls2 HF2) as (lsr & HFr & Hcr).
    destruct (Hem _ _ Hxy) as (f & Hf).
    exists ((lx ++ ly) :: lsr). split; [|simpl; by rewrite Hcr, app_assoc].
    constructor; [|done]. by eapply expands_node.
Qed.

Lemma encode_expands em dm fuel l out h ls :
  (∀ p t, em !! p = Some t → ∃ f, dm !! t = Some (mkTokenPair p.1 p.2 f)) →
  Forall2 (expands dm h) l ls →
  encode fuel em l = Some out →
  ∃ h' ls', Forall2 (expands dm h') out ls' ∧ concat ls' = concat ls.
Proof.
  intros Hem. revert l h ls. induction fuel as [|fuel IH]; intros l h ls HF;
    rewrite encode_unfold;
    destruct (merge_scan_expands em dm h l ls Hem HF) as (ls' & HF' & Hc);
    destruct (merge_scan em l).1; try done.
  - intros [= <-]. by exists (S h), ls'.
  - intros [= <-]. by exists (S h), ls'.
  - intros Henc. destruct (IH _ _ _ HF' Henc) as (h' & ls'' & ? & ?).
    exists h', ls''. split; [done|congruence].
Qed.

(** ** Round trip *)

(** C1: for a merge table produced by a completed training run and a raw
    input (symbols 0..255), [encode] returns and [decode] of its result
    returns the input. *)
Theorem round_trip (tokens : list Z) (v : Z) (fuel : nat) (self : Tokenizer)
    (input : list Z) :
  train fuel (init tokens v) = Ok self →
  raw input →
  ∃ enc,
    encode (length input) (encoding_map self) input = Some enc
    ∧ ∃ k, ∀ n, (k ≤ n)%nat → decode n (decoding_map self) enc = Some input.
Proof.
  intros Ht Hraw.
  destruct (train_tables_ok _ _ _ _ Ht) as (_ & Hkeys & Hem).
  destruct (encode_terminates (length input) (encoding_map self) input) as [enc Henc];
    [done|].
  exists enc. split; [done|].
  assert (∀ s, s ∈ input → decoding_map self !! s = None) as Hleaf.
  { intros s Hs. unfold raw in Hraw. rewrite Forall_forall in Hraw.
    specialize (Hraw s Hs). destruct (decoding_map self !! s) as [tp|] eqn:Hd; [|done].
    apply Hkeys in Hd. lia. }
  destruct (encode_expands _ (decoding_map self) _ _ _ 0%nat _
              (λ p t Hp, proj2 (Hem p t Hp)) (leaves_expand _ _ _ Hleaf) Henc)
    as (h & ls & HF & Hc).
  rewrite concat_singletons in Hc. exists h. intros n Hn.
  rewrite <- Hc. by apply (decode_expands _ h).
Qed.

Lemma round_trip_witness :
  ∃ enc,
    encode (length aaabdaaabac)
      (encoding_map
         (merge_step (merge_step (init aaabdaaabac 258) (mkTokenPair 97 97 4))
            (mkTokenPair 256 97 2))) aaabdaaabac = Some enc
    ∧ ∃ k, ∀ n, (k ≤ n)%nat →
        decode n
          (decoding_map
             (merge_step (merge_step (init aaabdaaabac 258) (mkTokenPair 97 97 4))
                (mkTokenPair 256 97 2))) enc = Some aaabdaaabac.
Proof.
  apply (round_trip aaabdaaabac 258 11).
  - vm_compute. reflexivity.
  - unfold raw, aaabdaaabac. repeat constructor; lia.
Defined.

(** The specification's scenario: two merges on "aaabdaaabac" with target
    size 258, and encoding the same input reproduces the final stream. *)
Example scenario_aaabdaaabac :
  ∃ self, train 11 (init aaabdaaabac 258) = Ok self
    ∧ encoded_tokens self = [257; 98; 100; 257; 98; 97; 99]
    ∧ decoding_map self = trained_aaabdaaabac
    ∧ encode 11 (encoding_map self) aaabdaaabac = Some (encoded_tokens self)
    ∧ decode 11 (decoding_map self) (encoded_tokens self) = Some aaabdaaabac.
Proof. eexists. split; [vm_compute; reflexivity|]. vm_compute. done. Qed.

(** ** Termination of decode *)

Lemma keys_lower_bound (dm : gmap Z TokenPair) :
  ∃ L, ∀ k tp, dm !! k = Some tp → L ≤ k.
Proof.
  induction dm as [|k tp dm Hk [L HL]] using map_ind.
  - exists 0. intros k tp. by rewrite lookup_empty.
  - exists (Z.min L k). intros k' tp'. destruct (decide (k = k')) as [<-|Hne].
    + lia.
    + rewrite lookup_insert_ne by done. intros ?%HL. lia.
Qed.

Lemma decreasing_expands dm s : decreasing dm → ∃ h l, expands dm h s l.
Proof.
  intros Hdec. destruct (keys_lower_bound dm) as [L HL].
  assert (∀ n : nat, ∀ s, s < L + Z.of_nat n → ∃ h l, expands dm h s l) as Hbound.
  { intros n. induction n as [|n IH]; intros s' Hs'.
    - exists 0%nat, [s']. apply expands_leaf.
      destruct (dm !! s') as [tp|] eqn:Hd; [|done]. apply HL in Hd. lia.
    - destruct (dm !! s') as [tp|] eqn:Hd.
      + destruct (Hdec _ _ Hd) as [Ha Hb].
        destruct (IH (first_token tp)) as (ha & la & Hea); [lia|].
        destruct (IH (second_token tp)) as (hb & lb & Heb); [lia|].
        exists (S (ha `max` hb)), (la ++ lb).
        eapply expands_node; [done|eapply expands_weaken; [done|lia]..].
      + exists 0%nat, [s']. by apply expands_leaf. }
  apply (Hbound (Z.to_nat (s - L + 1))). lia.
Qed.

Lemma decreasing_expands_list dm ts :
  decreasing dm → ∃ h ls, Forall2 (expands dm h) ts ls.
Proof.
  intros Hdec. induction ts as [|s ts (h & ls & HF)]; [by exists 0%nat, []|].
  destruct (decreasing_expands dm s Hdec) as (hs & l & Hex).
  exists (hs `max` h)%nat, (l :: ls). constructor.
  - eapply expands_weaken; [done|lia].
  - eapply expands_list_weaken; [done|lia].
Qed.

(** A returning [decode] made [k] expanding passes and one pass without
    expansion. *)
Lemma decode_passes fuel dm ts r :
  decode fuel dm ts = Some r →
  ∃ k, (∀ n, (k ≤ n)%nat → decode n dm ts = Some (iter_pass dm k ts))
    ∧ (decode_pass dm (iter_pass dm k ts)).1 = true
    ∧ ∀ j, (j < k)%nat → (decode_pass dm (iter_pass dm j ts)).1 = false.
Proof.
  revert ts. induction fuel as [|fuel IH]; intros ts; rewrite decode_unfold;
    destruct (decode_pass dm ts).1 eqn:Hflag; try done.
  1,2: intros _; exists 0%nat; split_and!; [|done|lia];
    intros n _; rewrite decode_unfold, Hflag; simpl;
    by rewrite decode_pass_id by (by apply decode_pass_done).
  intros (k & Hk & Hlast & Hbefore)%IH. exists (S k). split_and!; [|done|].
  - intros [|n] Hn; [lia|]. rewrite decode_unfold, Hflag. simpl. apply Hk. lia.
  - intros [|j] Hj; [done|]. simpl. apply Hbefore. lia.
Qed.

(** C7: when every entry of the decoding map unfolds a symbol into two
    strictly smaller symbols, as in a map produced by training, the decode
    loop returns: after some number [k] of expanding passes a pass performs
    no expansion, and the loop stops at that first such pass. *)
Theorem decode_terminates (dm : gmap Z TokenPair) (ts : list Z) :
  decreasing dm →
  ∃ k, (∀ fuel, (k ≤ fuel)%nat → decode fuel dm ts = Some (iter_pass dm k ts))
    ∧ (decode_pass dm (iter_pass dm k ts)).1 = true
    ∧ ∀ j, (j < k)%nat → (decode_pass dm (iter_pass dm j ts)).1 = false.
Proof.
  intros Hdec. destruct (decreasing_expands_list dm ts Hdec) as (h & ls & HF).
  by apply (decode_passes h dm ts (concat ls)), (decode_expands dm h).
Qed.

Lemma decode_terminates_witness :
  ∃ k, (∀ fuel, (k ≤ fuel)%nat →
          decode fuel trained_aaabdaaabac [257; 98]
          = Some (iter_pass trained_aaabdaaabac k [257; 98]))
    ∧ (decode_pass trained_aaabdaaabac (iter_pass trained_aaabdaaabac k [257; 98])).1 = true
    ∧ ∀ j, (j < k)%nat →
        (decode_pass trained_aaabdaaabac (iter_pass trained_aaabdaaabac j [257; 98])).1 = false.
Proof.
  apply (decode_terminates trained_aaabdaaabac [257; 98]).
  intros k tp. unfold trained_aaabdaaabac.
  destruct (decide (257 = k)) as [<-|Hk].
  - rewrite lookup_insert_eq. intros [= <-]. simpl. lia.
  - rewrite lookup_insert_ne by done.
    intros [<- <-]%lookup_singleton_Some. simpl. lia.
Defined.

(** * Further properties of the tokenizer *)

(** ** The pair table *)

Lemma seen_order_NoDup l : NoDup (seen_order l).
Proof.
  induction l as [|p l IH] using rev_ind; [constructor|].
  rewrite seen_order_snoc. case_decide; [done|].
  apply NoDup_app. split_and!; [done| |apply NoDup_singleton].
  intros x Hx ->%list_elem_of_singleton. done.
Qed.

Lemma count_keys ts : map fst (count ts) = seen_order (adjacent ts).
Proof.
  rewrite count_spec, map_map. simpl. apply map_id.
Qed.

(** X1: [count] holds one entry per distinct adjacent pair, carrying the pair
    and the number of (overlapping) positions at which it occurs, and no
    entry for a pair that does not occur. *)
Theorem count_lookup (ts : list Z) (p : Z * Z) :
  NoDup (map fst (count ts))
  ∧ tc_get p (count ts)
    = if decide (p ∈ adjacent ts)
      then Some (mkTokenPair p.1 p.2 (occ p (adjacent ts)))
      else None.
Proof.
  split.
  - rewrite count_keys. apply seen_order_NoDup.
  - rewrite count_spec, tc_get_entries. simpl.
    destruct (decide (p ∈ seen_order (adjacent ts))) as [Hin|Hin];
      rewrite elem_of_seen_order in Hin;
      [by rewrite decide_True|by rewrite decide_False].
Qed.

Lemma total_frequency_entries l ks :
  NoDup ks → (∀ k, k ∈ l → k ∈ ks) →
  total_frequency (map (entry l) ks) = Z.of_nat (length l).
Proof.
  revert ks. induction l as [|p l IH] using rev_ind; intros ks Hnd Hin.
  - induction ks as [|k ks IHk]; [done|]. simpl in *.
    rewrite IHk; [done|by inversion Hnd|by intros ??%elem_of_nil].
  - rewrite length_app, Nat2Z.inj_add. simpl.
    rewrite <- (IH ks Hnd) by (intros k Hk; apply Hin; set_solver).
    assert (p ∈ ks) as Hp by (apply Hin; set_solver).
    clear IH Hin. induction ks as [|k ks IHk]; [by apply elem_of_nil in Hp|].
    apply NoDup_cons in Hnd as [Hk Hnd]. simpl. rewrite occ_app. simpl.
    destruct (decide (p = k)) as [->|Hne].
    + assert (total_frequency (map (entry (l ++ [k])) ks)
              = total_frequency (map (entry l) ks)) as ->; [|lia].
      f_equal. apply map_ext_in. intros k' Hk'%list_elem_of_In. unfold entry.
      rewrite occ_app. simpl. rewrite decide_False by (intros ->; done).
      do 2 f_equal; lia.
    + unfold total_frequency in *.
      rewrite IHk; [lia|done|set_solver].
Qed.

(** X2: the frequencies of the table add up to the number of adjacent
    positions, [len(tokens) - 1] (0 for an empty stream): windows overlap
    and none is skipped. *)
Theorem count_total (ts : list Z) :
  total_frequency (count ts) = Z.of_nat (length ts - 1).
Proof.
  rewrite count_spec, total_frequency_entries.
  - by rewrite adjacent_length.
  - apply seen_order_NoDup.
  - intros k. by rewrite elem_of_seen_order.
Qed.

(** ** Effect of one rewrite on the stream *)

Lemma adjacent_cons u l :
  adjacent (u :: l) = match l with [] => [] | v :: _ => (u, v) :: adjacent l end.
Proof. by destruct l. Qed.

Lemma greedy_head a b mint v rest :
  head (greedy_replace a b mint (v :: rest)) = Some mint
  ∨ head (greedy_replace a b mint (v :: rest)) = Some v.
Proof. destruct rest as [|w rest]; simpl; [by right|]. case_decide; [by left|by right]. Qed.

(** Pairs of the rewritten stream that do not involve the new symbol were
    adjacent before, and none of them is the merged pair. *)
Lemma greedy_adjacent a b mint l x y :
  (x, y) ∈ adjacent (greedy_replace a b mint l) →
  x = mint ∨ y = mint ∨ ((x, y) ∈ adjacent l ∧ ¬ (a = x ∧ b = y)).
Proof.
  induction l as [l IH] using (induction_ltof1 _ (@length Z)); unfold ltof in IH.
  destruct l as [|u [|v rest]]; [by intros ?%elem_of_nil..|].
  change (greedy_replace a b mint (u :: v :: rest))
    with (if decide (a = u ∧ b = v) then mint :: greedy_replace a b mint rest
          else u :: greedy_replace a b mint (v :: rest)).
  change (adjacent (u :: v :: rest)) with ((u, v) :: adjacent (v :: rest)).
  case_decide as Huv; rewrite adjacent_cons.
  - destruct (greedy_replace a b mint rest) as [|w out] eqn:Hout;
      [by intros ?%elem_of_nil|].
    intros [[= -> ->]|Hin]%elem_of_cons; [by left|].
    rewrite <- Hout in Hin. apply IH in Hin; [|simpl; lia].
    destruct Hin as [?|[?|[Hin ?]]]; [by left|by right; left|].
    right; right. split; [|done]. right. rewrite adjacent_cons.
    destruct rest; [by apply elem_of_nil in Hin|by right].
  - destruct (greedy_head a b mint v rest) as [Hh|Hh];
      destruct (greedy_replace a b mint (v :: rest)) as [|w out] eqn:Hout;
      try done; injection Hh as ->.
    all: intros [[= -> ->]|Hin]%elem_of_cons.
    all: try (rewrite <- Hout in Hin; apply IH in Hin; [|simpl; lia];
              destruct Hin as [?|[?|[Hin ?]]]; [by left|by right; left|];
              right; right; split; [by right|done]).
    + by right; left.
    + right; right. split; [by left|done].
Qed.

(** X3: after the rewrite the merged pair no longer occurs in the stream, and
    the rewrite creates no new adjacency between old symbols. *)
Theorem merge_removes_pair (a b mint : Z) (l : list Z) :
  mint ≠ a → mint ≠ b →
  (a, b) ∉ adjacent (swap_rewrite a b mint l)
  ∧ ∀ x y, (x, y) ∈ adjacent (swap_rewrite a b mint l) →
      x ≠ mint → y ≠ mint → (x, y) ∈ adjacent l.
Proof.
  intros Ha Hb. rewrite swap_rewrite_greedy. split.
  - intros [?|[?|[_ Hne]]]%greedy_adjacent; [done..|]. by apply Hne.
  - intros x y [?|[?|[? _]]]%greedy_adjacent; done.
Qed.

Lemma merge_removes_pair_witness :
  (97, 97) ∉ adjacent (swap_rewrite 97 97 256 aaabdaaabac)
  ∧ ∀ x y, (x, y) ∈ adjacent (swap_rewrite 97 97 256 aaabdaaabac) →
      x ≠ 256 → y ≠ 256 → (x, y) ∈ adjacent aaabdaaabac.
Proof. apply (merge_removes_pair 97 97 256 aaabdaaabac); lia. Defined.

Lemma greedy_merges_occ a b l :
  Z.of_nat (greedy_merges a b l) ≤ occ (a, b) (adjacent l)
  ∧ (a ≠ b → Z.of_nat (greedy_merges a b l) = occ (a, b) (adjacent l)).
Proof.
  induction l as [l IH] using (induction_ltof1 _ (@length Z)); unfold ltof in IH.
  destruct l as [|u [|v rest]]; [done..|].
  change (greedy_merges a b (u :: v :: rest))
    with (if decide (a = u ∧ b = v) then S (greedy_merges a b rest)
          else greedy_merges a b (v :: rest)).
  change (adjacent (u :: v :: rest)) with ((u, v) :: adjacent (v :: rest)).
  cbn [occ]. case_decide as Huv.
  - destruct Huv as [<- <-]. rewrite decide_True by done.
    destruct (IH rest ltac:(simpl; lia)) as [Hle Heq].
    rewrite adjacent_cons. destruct rest as [|w rest]; [simpl in *; split; lia|].
    cbn [occ]. pose proof (occ_nonneg (a, b) (adjacent (w :: rest))).
    split; [case_decide; lia|]. intros Hab.
    rewrite decide_False by (intros [= ? ?]; congruence).
    specialize (Heq Hab). lia.
  - rewrite decide_False by (intros [= ? ?]; naive_solver).
    destruct (IH (v :: rest) ltac:(simpl; lia)) as [Hle Heq]. split; [lia|].
    intros Hab. specialize (Heq Hab). lia.
Qed.

(** X4: the rewrite shortens the stream by one symbol per replacement: by at
    most the number of occurrences of the pair, by at least one when the
    pair occurs, and by exactly the number of occurrences when the two
    symbols of the pair differ (occurrences cannot overlap then). *)
Theorem merge_length (a b mint : Z) (l : list Z) :
  Z.of_nat (length l) - occ (a, b) (adjacent l)
  ≤ Z.of_nat (length (swap_rewrite a b mint l)) ≤ Z.of_nat (length l)
  ∧ ((a, b) ∈ adjacent l → (length (swap_rewrite a b mint l) < length l)%nat)
  ∧ (a ≠ b →
     Z.of_nat (length (swap_rewrite a b mint l))
     = Z.of_nat (length l) - occ (a, b) (adjacent l)).
Proof.
  rewrite swap_rewrite_greedy.
  destruct (greedy_length a b mint l) as [Hlen _].
  destruct (greedy_merges_occ a b l) as [Hle Heq].
  split_and!; [lia|lia| |].
  - intros Hin%(greedy_merges_pos a b). lia.
  - intros Hab. specialize (Heq Hab). lia.
Qed.

(** ** Training always returns *)

(** X5: on every input of at least two symbols, whatever the target size,
    [train] returns without raising after at most [len(tokens) - 2]
    repetitions of its loop; the returned stream still has at least two
    symbols and is no longer than the input. *)
Theorem train_returns (tokens : list Z) (v : Z) :
  (2 ≤ length tokens)%nat →
  ∃ self,
    train (length tokens - 2) (init tokens v) = Ok self
    ∧ (2 ≤ length (encoded_tokens self) ≤ length tokens)%nat
    ∧ tcounts self = count (encoded_tokens self)
    ∧ encoding_vocab_size self = v.
Proof.
  intros Hlen.
  destruct (train_terminates (length tokens - 2) (init tokens v)) as [self Ht];
    [done|simpl; lia|].
  exists self. split; [done|]. revert Ht.
  apply (train_invariant
           (λ s, (2 ≤ length (encoded_tokens s) ≤ length tokens)%nat
                 ∧ coherent s ∧ encoding_vocab_size s = v)).
  - intros s top (Hl & Hc & Hv) Hget Hf.
    pose proof (merge_step_length _ _ Hc Hget Hf). split_and!; [lia..|done|done].
  - simpl. split_and!; [lia..|done|done].
Qed.

Lemma train_returns_witness :
  ∃ self,
    train (length aaabdaaabac - 2) (init aaabdaaabac 258) = Ok self
    ∧ (2 ≤ length (encoded_tokens self) ≤ length aaabdaaabac)%nat
    ∧ tcounts self = count (encoded_tokens self)
    ∧ encoding_vocab_size self = 258.
Proof. apply (train_returns aaabdaaabac 258). simpl. lia. Defined.

(** ** The merge tables after training *)

Lemma train_minted_range (tokens : list Z) (v : Z) (fuel : nat) (self : Tokenizer) :
  train fuel (init tokens v) = Ok self →
  256 ≤ mint_token self
  ∧ (∀ k, is_Some (decoding_map self !! k) ↔ 256 ≤ k < mint_token self)
  ∧ Z.of_nat (size (decoding_map self)) = mint_token self - 256.
Proof.
  apply (train_invariant
           (λ s, 256 ≤ mint_token s
                 ∧ (∀ k, is_Some (decoding_map s !! k) ↔ 256 ≤ k < mint_token s)
                 ∧ Z.of_nat (size (decoding_map s)) = mint_token s - 256)).
  - intros s top (Hm & Hk & Hsz) _ _. simpl. split_and!; [lia| |].
    + intros k. rewrite lookup_insert_is_Some, Hk. split; [|destruct (decide (mint_token s = k))]; naive_solver lia.
    + rewrite map_size_insert_None; [lia|].
      apply eq_None_not_Some. rewrite Hk. lia.
  - simpl. split_and!; [done| |by rewrite map_size_empty].
    intros k. rewrite lookup_empty. split; [by intros [? ?]|lia].
Qed.

(** X6: after training the keys of [decoding_map] are exactly the ids from 256
    up to, not including, [mint_token]: ids are handed out one by one
    without gaps, and the table has [mint_token - 256] entries. *)
Theorem minted_ids_contiguous (tokens : list Z) (v : Z) (fuel : nat) (self : Tokenizer) :
  train fuel (init tokens v) = Ok self →
  256 ≤ mint_token self
  ∧ (∀ k, is_Some (decoding_map self !! k) ↔ 256 ≤ k < mint_token self)
  ∧ Z.of_nat (size (decoding_map self)) = mint_token self - 256.
Proof. apply train_minted_range. Qed.

Lemma minted_ids_contiguous_witness :
  256 ≤ mint_token (merge_step (init aaa 276) (mkTokenPair 97 97 2))
  ∧ (∀ k, is_Some (decoding_map (merge_step (init aaa 276) (mkTokenPair 97 97 2)) !! k)
          ↔ 256 ≤ k < mint_token (merge_step (init aaa 276) (mkTokenPair 97 97 2)))
  ∧ Z.of_nat (size (decoding_map (merge_step (init aaa 276) (mkTokenPair 97 97 2))))
    = mint_token (merge_step (init aaa 276) (mkTokenPair 97 97 2)) - 256.
Proof. apply (minted_ids_contiguous aaa 276 3). vm_compute. reflexivity. Defined.

Lemma pairs_retired_step self top :
  pairs_retired self → get_most_common (tcounts self) = Some top →
  pairs_retired (merge_step self top).
Proof.
  intros (Hb & Hok & Hinv & Hgone) Hget.
  pose proof Hb as (Hc & Hlt & Hdec). pose proof Hok as (Hmint & Hkeys & Hem).
  assert (_key top ∈ adjacent (encoded_tokens self)) as Htop.
  { rewrite Hc in Hget. by apply most_common_occurs in Hget as (? & _). }
  assert (encoding_map self !! _key top = None) as Hfresh.
  { apply eq_None_not_Some. intros Hs. by apply Hgone in Hs. }
  split_and!; [by apply below_mint_step|by apply tables_ok_step| |].
  - intros m tp. simpl. destruct (decide (mint_token self = m)) as [<-|Hm].
    + rewrite lookup_insert_eq. intros [= <-]. apply lookup_insert_eq.
    + rewrite lookup_insert_ne by done. intros Hd.
      rewrite lookup_insert_ne; [by apply Hinv|].
      intros Heq. apply Hinv in Hd. rewrite <- Heq, Hfresh in Hd. done.
  - intros [x y] Hs. rewrite merge_step_stream. simpl in Hs.
    apply adjacent_elem in Htop as [Ha Hb']. apply Hlt in Ha, Hb'.
    intros [->|[->|[Hin Hne]]]%greedy_adjacent.
    + apply lookup_insert_is_Some in Hs as [[= ? ?]|[_ [m Hm]]]; [unfold _key in *; simpl in *; lia|].
      destruct (Hem _ _ Hm) as (Hr & f & Hf). apply Hdec in Hf. simpl in Hf. lia.
    + apply lookup_insert_is_Some in Hs as [[= ? ?]|[_ [m Hm]]]; [unfold _key in *; simpl in *; lia|].
      destruct (Hem _ _ Hm) as (Hr & f & Hf). apply Hdec in Hf. simpl in Hf. lia.
    + apply lookup_insert_is_Some in Hs as [[= ? ?]|[_ Hs]]; [by apply Hne|].
      by apply Hgone in Hs.
Qed.

(** X7: after training on raw input the two tables are inverse to each other:
    a pair maps to an id in [encoding_map] exactly when that id maps back
    to the pair in [decoding_map]; hence no two pairs share an id and no
    two ids stand for the same pair. *)
Theorem tables_inverse (tokens : list Z) (v : Z) (fuel : nat) (self : Tokenizer) :
  raw tokens →
  train fuel (init tokens v) = Ok self →
  ∀ p m, encoding_map self !! p = Some m
         ↔ ∃ f, decoding_map self !! m = Some (mkTokenPair p.1 p.2 f).
Proof.
  intros Hraw Ht.
  assert (pairs_retired self) as (_ & (_ & _ & Hem) & Hinv & _).
  { revert Ht. apply (train_invariant pairs_retired).
    - intros s top ? ? _. by apply pairs_retired_step.
    - split_and!; [by apply below_mint_init|apply tables_ok_init| |].
      + intros m tp. simpl. by rewrite lookup_empty.
      + intros p. simpl. rewrite lookup_empty. by intros [? ?]. }
  intros p m. split.
  - intros Hp. by destruct (Hem p m Hp).
  - intros [f Hf]. apply Hinv in Hf. by destruct p.
Qed.

Lemma tables_inverse_witness :
  encoding_map
    (merge_step (merge_step (init aaabdaaabac 258) (mkTokenPair 97 97 4))
       (mkTokenPair 256 97 2)) !! (256, 97) = Some 257
  ↔ ∃ f, decoding_map
           (merge_step (merge_step (init aaabdaaabac 258) (mkTokenPair 97 97 4))
              (mkTokenPair 256 97 2)) !! 257 = Some (mkTokenPair (256, 97).1 (256, 97).2 f).
Proof.
  apply (tables_inverse aaabdaaabac 258 11).
  - unfold raw, aaabdaaabac. repeat constructor; lia.
  - vm_compute. reflexivity.
Defined.

(** ** Training and encoding share one rewrite *)

Lemma greedy_as_scan a b mint l :
  mint ≠ 0 → (merge_scan {[ (a, b) := mint ]} l).2 = greedy_replace a b mint l.
Proof.
  intros Hm.
  induction l as [l IH] using (induction_ltof1 _ (@length Z)); unfold ltof in IH.
  destruct l as [|u [|w rest]]; [done..|].
  rewrite merge_scan_cons.
  change (greedy_replace a b mint (u :: w :: rest))
    with (if decide (a = u ∧ b = w) then mint :: greedy_replace a b mint rest
          else u :: greedy_replace a b mint (w :: rest)).
  case_decide as Huw.
  - destruct Huw as [<- <-]. rewrite lookup_singleton_eq.
    unfold truthy. rewrite (proj2 (Z.eqb_neq mint 0) Hm). cbn [negb snd].
    f_equal. apply IH. simpl. lia.
  - rewrite lookup_singleton_ne by naive_solver. cbn [snd].
    f_equal. apply IH. simpl. lia.
Qed.

(** X8: the rewrite of [swap_top] for pair (a, b) and new id [mint] is one pass
    of [encode] with the one-entry table {(a, b): mint}. *)
Theorem swap_rewrite_is_encode_pass (a b mint : Z) (l : list Z) :
  mint ≠ 0 → swap_rewrite a b mint l = (encode_pass {[ (a, b) := mint ]} l).2.
Proof.
  intros Hm. by rewrite swap_rewrite_greedy, encode_pass_merge, greedy_as_scan.
Qed.

Lemma swap_rewrite_is_encode_pass_witness :
  swap_rewrite 97 97 256 aaabdaaabac = (encode_pass {[ (97, 97) := 256 ]} aaabdaaabac).2.
Proof. apply (swap_rewrite_is_encode_pass 97 97 256 aaabdaaabac). lia. Defined.

(** ** Training is lossless *)

Lemma expands_insert dm h s l mint top :
  decreasing dm → expands dm h s l → s < mint →
  expands (<[mint := top]> dm) h s l.
Proof.
  intros Hdec Hex. induction Hex as [h s Hs|h s tp la lb Hs _ IHa _ IHb]; intros Hlt.
  - apply expands_leaf. rewrite lookup_insert_ne; [done|lia].
  - destruct (Hdec _ _ Hs) as [Ha Hb].
    eapply expands_node; [|apply IHa; lia|apply IHb; lia].
    rewrite lookup_insert_ne; [done|lia].
Qed.

Lemma expands_insert_list dm h ts ls mint top :
  decreasing dm → Forall2 (expands dm h) ts ls → (∀ s, s ∈ ts → s < mint) →
  Forall2 (expands (<[mint := top]> dm) h) ts ls.
Proof.
  intros Hdec HF. induction HF as [|s l ts ls Hex HF IH]; intros Hlt; constructor.
  - apply expands_insert; [done..|]. apply Hlt. left.
  - apply IH. intros s' Hs'. apply Hlt. by right.
Qed.

Lemma stream_unfolds_step tokens self top :
  stream_unfolds tokens self → get_most_common (tcounts self) = Some top →
  stream_unfolds tokens (merge_step self top).
Proof.
  intros (Hb & Hm & h & ls & HF & Hc) Hget.
  pose proof Hb as (_ & Hlt & Hdec).
  split_and!; [by apply below_mint_step|simpl; lia|].
  assert (Forall2 (expands (<[mint_token self := top]> (decoding_map self)) h)
            (encoded_tokens self) ls) as HF'.
  { by apply expands_insert_list. }
  destruct (merge_scan_expands
              {[ (first_token top, second_token top) := mint_token self ]}
              (<[mint_token self := top]> (decoding_map self)) h
              (encoded_tokens self) ls) as (ls' & HFs & Hcs); [|done|].
  { intros p t [<- <-]%lookup_singleton_Some. exists (frequency top).
    rewrite lookup_insert_eq. by destruct top. }
  rewrite greedy_as_scan in HFs by lia.
  exists (S h), ls'. rewrite merge_step_stream. split; [done|congruence].
Qed.

(** X9: after training on raw input, decoding the returned stream with the
    learned table gives back the training input. *)
Theorem train_lossless (tokens : list Z) (v : Z) (fuel : nat) (self : Tokenizer) :
  raw tokens →
  train fuel (init tokens v) = Ok self →
  ∃ k, ∀ n, (k ≤ n)%nat →
    decode n (decoding_map self) (encoded_tokens self) = Some tokens.
Proof.
  intros Hraw Ht.
  assert (stream_unfolds tokens self) as (_ & _ & h & ls & HF & <-).
  { revert Ht. apply (train_invariant (stream_unfolds tokens)).
    - intros s top ? ? _. by apply stream_unfolds_step.
    - split_and!; [by apply below_mint_init|done|].
      exists 0%nat, (map (λ s, [s]) tokens). split; [|apply concat_singletons].
      apply leaves_expand. intros s _. simpl. apply lookup_empty. }
  exists h. intros n Hn. by apply (decode_expands _ h).
Qed.

Lemma train_lossless_witness :
  ∃ k, ∀ n, (k ≤ n)%nat →
    decode n
      (decoding_map
         (merge_step (merge_step (init aaabdaaabac 258) (mkTokenPair 97 97 4))
            (mkTokenPair 256 97 2)))
      (encoded_tokens
         (merge_step (merge_step (init aaabdaaabac 258) (mkTokenPair 97 97 4))
            (mkTokenPair 256 97 2))) = Some aaabdaaabac.
Proof.
  apply (train_lossless aaabdaaabac 258 11).
  - unfold raw, aaabdaaabac. repeat constructor; lia.
  - vm_compute. reflexivity.
Defined.

(** ** What decode returns *)

Lemma ids_nonneg_step self top :
  ids_nonneg self → get_most_common (tcounts self) = Some top →
  ids_nonneg (merge_step self top).
Proof.
  intros (Hc & Hm & Hs & He) Hget. split_and!; [done|simpl; lia| |].
  - intros s. rewrite merge_step_stream. intros [->|Hin]%greedy_elem; [lia|by apply Hs].
  - intros k tp. simpl. destruct (decide (mint_token self = k)) as [<-|Hk].
    + rewrite lookup_insert_eq. intros [= <-].
      rewrite Hc in Hget. apply most_common_occurs in Hget as (Hin & _).
      apply adjacent_elem in Hin as [? ?]. split; by apply Hs.
    + rewrite lookup_insert_ne by done. apply He.
Qed.

Lemma train_ids_nonneg fuel tokens v self :
  raw tokens → train fuel (init tokens v) = Ok self → ids_nonneg self.
Proof.
  intros Hraw. apply (train_invariant ids_nonneg).
  - intros s top ? ? _. by apply ids_nonneg_step.
  - split_and!; [done..| |by intros ???; simplify_map_eq].
    intros s Hs. simpl in *. unfold raw in Hraw. rewrite Forall_forall in Hraw.
    specialize (Hraw s Hs). lia.
Qed.

Lemma expands_raw dm h s l mint :
  (∀ k, is_Some (dm !! k) ↔ 256 ≤ k < mint) → decreasing dm →
  (∀ k tp, dm !! k = Some tp → 0 ≤ first_token tp ∧ 0 ≤ second_token tp) →
  expands dm h s l → 0 ≤ s < mint → raw l.
Proof.
  intros Hkeys Hdec Hnn Hex.
  induction Hex as [h s Hs|h s tp la lb Hs _ IHa _ IHb]; intros Hr.
  - constructor; [|constructor]. apply eq_None_not_Some in Hs. rewrite Hkeys in Hs. lia.
  - destruct (Hdec _ _ Hs), (Hnn _ _ Hs). apply Forall_app. split; [apply IHa|apply IHb]; lia.
Qed.

(** X10: under a table trained on raw input, [decode] of any sequence of ids the
    tokenizer knows (raw bytes and minted ids) returns, and its result
    consists of byte values 0..255 only. *)
Theorem decode_yields_bytes (tokens : list Z) (v : Z) (fuel : nat) (self : Tokenizer)
    (ts : list Z) :
  raw tokens →
  train fuel (init tokens v) = Ok self →
  valid_ids self ts →
  ∃ k r, (∀ n, (k ≤ n)%nat → decode n (decoding_map self) ts = Some r) ∧ raw r.
Proof.
  intros Hraw Ht Hvalid.
  pose proof (train_decreasing _ _ _ _ Hraw Ht) as Hdec.
  destruct (train_minted_range _ _ _ _ Ht) as (_ & Hkeys & _).
  destruct (train_ids_nonneg _ _ _ _ Hraw Ht) as (_ & _ & _ & Hnn).
  destruct (decreasing_expands_list _ ts Hdec) as (h & ls & HF).
  exists h, (concat ls). split; [intros n Hn; by apply (decode_expands _ h)|].
  unfold raw. apply Forall_concat. unfold valid_ids in Hvalid.
  clear Ht. induction HF as [|s l ts ls Hex HF IH]; [constructor|].
  apply Forall_cons in Hvalid as [Hs Hvalid]. constructor; [|by apply IH].
  by apply (expands_raw _ _ _ _ _ Hkeys Hdec Hnn Hex).
Qed.

Lemma decode_yields_bytes_witness :
  ∃ k r,
    (∀ n, (k ≤ n)%nat →
       decode n
         (decoding_map
            (merge_step (merge_step (init aaabdaaabac 258) (mkTokenPair 97 97 4))
               (mkTokenPair 256 97 2))) [257; 0; 256] = Some r)
    ∧ raw r.
Proof.
  apply (decode_yields_bytes aaabdaaabac 258 11).
  - unfold raw, aaabdaaabac. repeat constructor; lia.
  - vm_compute. reflexivity.
  - unfold valid_ids. simpl. repeat constructor; lia.
Defined.

(** X11: under a table trained on raw input, encoding never changes what a
    sequence decodes to: for every sequence of symbols, [encode] returns
    and [decode] gives the same result on its output as on the sequence
    itself. *)
Theorem encode_preserves_decoding (tokens : list Z) (v : Z) (fuel : nat)
    (self : Tokenizer) (ts : list Z) :
  raw tokens →
  train fuel (init tokens v) = Ok self →
  ∃ enc k r,
    encode (length ts) (encoding_map self) ts = Some enc
    ∧ ∀ n, (k ≤ n)%nat →
        decode n (decoding_map self) enc = Some r
        ∧ decode n (decoding_map self) ts = Some r.
Proof.
  intros Hraw Ht.
  pose proof (train_decreasing _ _ _ _ Hraw Ht) as Hdec.
  destruct (train_tables_ok _ _ _ _ Ht) as (_ & _ & Hem).
  destruct (encode_terminates (length ts) (encoding_map self) ts) as [enc Henc]; [done|].
  destruct (decreasing_expands_list _ ts Hdec) as (h & ls & HF).
  destruct (encode_expands _ (decoding_map self) _ _ _ h _
              (λ p t Hp, proj2 (Hem p t Hp)) HF Henc) as (h' & ls' & HF' & Hc).
  exists enc, (h `max` h')%nat, (concat ls). split; [done|].
  intros n Hn. split.
  - rewrite <- Hc. apply (decode_expands _ h'); [done|lia].
  - apply (decode_expands _ h); [done|lia].
Qed.

Lemma encode_preserves_decoding_witness :
  ∃ enc k r,
    encode (length [97; 97; 256; 97])
      (encoding_map
         (merge_step (merge_step (init aaabdaaabac 258) (mkTokenPair 97 97 4))
            (mkTokenPair 256 97 2))) [97; 97; 256; 97] = Some enc
    ∧ ∀ n, (k ≤ n)%nat →
        decode n
          (decoding_map
             (merge_step (merge_step (init aaabdaaabac 258) (mkTokenPair 97 97 4))
                (mkTokenPair 256 97 2))) enc = Some r
        ∧ decode n
            (decoding_map
               (merge_step (merge_step (init aaabdaaabac 258) (mkTokenPair 97 97 4))
                  (mkTokenPair 256 97 2))) [97; 97; 256; 97] = Some r.
Proof.
  apply (encode_preserves_decoding aaabdaaabac 258 11).
  - unfold raw, aaabdaaabac. repeat constructor; lia.
  - vm_compute. reflexivity.
Defined.

(** ** Results of decode and encode are stable *)

Lemma decode_pass_length dm ts :
  (length ts ≤ length (decode_pass dm ts).2)%nat
  ∧ ((decode_pass dm ts).1 = false → (length ts < length (decode_pass dm ts).2)%nat).
Proof.
  rewrite decode_pass_spec. cbn [fst snd].
  induction ts as [|s ts [IH1 IH2]]; [done|].
  cbn [flat_map forallb]. rewrite length_app. unfold expand1 at 1 3.
  destruct (dm !! s) as [tp|] eqn:Hs.
  - rewrite bool_decide_eq_false_2 by done. simpl. split; lia.
  - rewrite bool_decide_eq_true_2 by done. simpl. split; [lia|].
    intros Hf. specialize (IH2 Hf). lia.
Qed.

(** X12: whatever the decoding map, a result of [decode] holds no key of the
    map, is at least as long as the input, equals the input exactly when
    the input holds no key, and is returned unchanged when decoded again. *)
Theorem decode_stable (dm : gmap Z TokenPair) (ts r : list Z) (fuel : nat) :
  decode fuel dm ts = Some r →
  (∀ s, s ∈ r → dm !! s = None)
  ∧ (length ts ≤ length r)%nat
  ∧ (r = ts ↔ ∀ s, s ∈ ts → dm !! s = None)
  ∧ ∀ n, decode n dm r = Some r.
Proof.
  revert ts. induction fuel as [|fuel IH]; intros ts; rewrite decode_unfold;
    destruct (decode_pass_length dm ts) as [Hle Hlt];
    destruct (decode_pass dm ts).1 eqn:Hflag; try done.
  1,2: pose proof (proj1 (decode_pass_done dm ts) Hflag) as Hn;
    rewrite decode_pass_id by done; intros [= <-];
    split_and!; [done|lia|done|];
    intros n; rewrite decode_unfold, (proj2 (decode_pass_done dm ts) Hn);
    by rewrite decode_pass_id.
  intros (Hnone & Hlen & _ & Hagain)%IH. specialize (Hlt eq_refl).
  split_and!; [done|lia| |done]. split.
  - intros ->. lia.
  - intros Hn. apply decode_pass_done in Hn. congruence.
Qed.

Lemma decode_stable_witness :
  (∀ s, s ∈ [97; 97; 97; 98] → trained_aaabdaaabac !! s = None)
  ∧ (length [257; 98] ≤ length [97; 97; 97; 98])%nat
  ∧ ([97; 97; 97; 98] = [257; 98] ↔ ∀ s, s ∈ [257; 98] → trained_aaabdaaabac !! s = None)
  ∧ ∀ n, decode n trained_aaabdaaabac [97; 97; 97; 98] = Some [97; 97; 97; 98].
Proof.
  apply (decode_stable trained_aaabdaaabac [257; 98] [97; 97; 97; 98] 2).
  vm_compute. reflexivity.
Defined.

Lemma merge_scan_none em l :
  (∀ p, p ∈ adjacent l → em !! p = None ∨ em !! p = Some 0) →
  merge_scan em l = (true, l).
Proof.
  induction l as [|x l IH]; [done|]. destruct l as [|y rest]; [done|].
  change (adjacent (x :: y :: rest)) with ((x, y) :: adjacent (y :: rest)).
  intros Hn. rewrite merge_scan_cons, IH by (intros p ?; apply Hn; by right).
  destruct (Hn (x, y)) as [-> | ->]; [left|done..].
Qed.

(** X13: whatever the encoding map, a result of [encode] is no longer than the
    input, equals the input exactly when no adjacent pair of the input has
    a non-zero entry in the map, and is returned unchanged when encoded
    again. *)
Theorem encode_stable (em : gmap (Z * Z) Z) (ts out : list Z) (fuel : nat) :
  encode fuel em ts = Some out →
  (length out ≤ length ts)%nat
  ∧ (out = ts ↔ ∀ p, p ∈ adjacent ts → em !! p = None ∨ em !! p = Some 0)
  ∧ ∀ n, encode n em out = Some out.
Proof.
  intros Henc. pose proof (encode_fixed _ _ _ _ Henc) as Hfix.
  cut ((length out ≤ length ts)%nat
       ∧ (out = ts ↔ ∀ p, p ∈ adjacent ts → em !! p = None ∨ em !! p = Some 0)).
  { intros [? ?]. split_and!; [done..|]. intros n. by rewrite encode_unfold, Hfix. }
  clear Hfix. revert ts Henc.
  induction fuel as [|fuel IH]; intros ts; rewrite encode_unfold;
    destruct (merge_scan_length em ts) as [Hle Hlt];
    destruct (merge_scan em ts).1 eqn:Hflag; try done.
  1,2: destruct (merge_scan_fixed em ts Hflag) as [-> Hadj]; intros [= <-];
    by split; [lia|].
  intros [Hlen _]%IH. specialize (Hlt eq_refl). split; [lia|]. split.
  - intros ->. lia.
  - intros Hn%merge_scan_none. rewrite Hn in Hflag. done.
Qed.

Lemma encode_stable_witness :
  (length [256; 97; 98] ≤ length [97; 97; 97; 98])%nat
  ∧ ([256; 97; 98] = [97; 97; 97; 98]
     ↔ ∀ p, p ∈ adjacent [97; 97; 97; 98] →
         ({[ (97, 97) := 256 ]} : gmap (Z * Z) Z) !! p = None
         ∨ ({[ (97, 97) := 256 ]} : gmap (Z * Z) Z) !! p = Some 0)
  ∧ ∀ n, encode n {[ (97, 97) := 256 ]} [256; 97; 98] = Some [256; 97; 98].
Proof.
  apply (encode_stable {[ (97, 97) := 256 ]} [97; 97; 97; 98] [256; 97; 98] 4).
  vm_compute. reflexivity.
Defined.

(** ** The visualizer *)

Lemma string_app_cons c (x y : string) : String c x +:+ y = String c (x +:+ y).
Proof. reflexivity. Qed.

Lemma string_app_nil_r (x : string) : x +:+ "" = x.
Proof. induction x as [|c x IH]; [done|]. by rewrite string_app_cons, IH. Qed.

Lemma string_app_assoc' (x y z : string) : (x +:+ y) +:+ z = x +:+ (y +:+ z).
Proof. induction x as [|c x IH]; [done|]. by rewrite !string_app_cons, IH. Qed.

Lemma show_symbols_app l1 l2 :
  show_symbols (l1 ++ l2) = show_symbols l1 +:+ show_symbols l2.
Proof.
  induction l1 as [|s l1 IH]; [done|].
  change (show_symbols ((s :: l1) ++ l2)) with (show_symbol s +:+ show_symbols (l1 ++ l2)).
  change (show_symbols (s :: l1)) with (show_symbol s +:+ show_symbols l1).
  by rewrite IH, string_app_assoc'.
Qed.

Lemma decode_token_leaf fuel dm s :
  dm !! s = None → decode_token fuel dm s = Some (show_symbol s).
Proof.
  intros Hs. unfold show_symbol.
  destruct fuel; simpl; rewrite Hs; destruct (Z.ltb_spec s 256) as [Hlt|Hge]; try done.
  all: destruct (Z.ltb_spec s 127); [lia|]; by rewrite andb_false_r.
Qed.

Lemma decode_token_expands dm h s l fuel :
  (∀ k tp, dm !! k = Some tp → 256 ≤ k) →
  expands dm h s l → (h ≤ fuel)%nat →
  decode_token fuel dm s = Some (show_symbols l).
Proof.
  intros Hkeys Hex. revert fuel.
  induction Hex as [h s Hs|h s tp la lb Hs _ IHa _ IHb]; intros fuel Hle.
  - rewrite decode_token_leaf by done. unfold show_symbols. simpl.
    by rewrite string_app_nil_r.
  - destruct fuel as [|fuel]; [lia|]. simpl. rewrite Hs.
    pose proof (Hkeys _ _ Hs). destruct (Z.ltb_spec s 256); [lia|].
    rewrite IHa, IHb by lia. by rewrite show_symbols_app.
Qed.

(** X14: for a decoding map with keys from 256 on whose entries unfold to
    smaller symbols (every table trained on raw input), [decode_token]
    returns, and the string it builds for a token is the concatenation of
    what it shows for each symbol of the token's decoding: the character
    itself for printable ASCII, the bracketed number otherwise. *)
Theorem decode_token_shows_decoding (dm : gmap Z TokenPair) (token : Z) :
  decreasing dm →
  (∀ k tp, dm !! k = Some tp → 256 ≤ k) →
  ∃ k r, ∀ n, (k ≤ n)%nat →
    decode n dm [token] = Some r
    ∧ decode_token n dm token = Some (show_symbols r).
Proof.
  intros Hdec Hkeys. destruct (decreasing_expands dm token Hdec) as (h & l & Hex).
  exists h, l. intros n Hn. split.
  - rewrite <- (app_nil_r l). apply (decode_expands dm h [token] [l]); [|done].
    by repeat constructor.
  - by apply (decode_token_expands dm h).
Qed.

Lemma decode_token_shows_decoding_witness :
  ∃ k r, ∀ n, (k ≤ n)%nat →
    decode n trained_aaabdaaabac [257] = Some r
    ∧ decode_token n trained_aaabdaaabac 257 = Some (show_symbols r).
Proof.
  apply (decode_token_shows_decoding trained_aaabdaaabac 257).
  - intros k tp. unfold trained_aaabdaaabac.
    destruct (decide (257 = k)) as [<-|Hk].
    + rewrite lookup_insert_eq. intros [= <-]. simpl. lia.
    + rewrite lookup_insert_ne by done.
      intros [<- <-]%lookup_singleton_Some. simpl. lia.
  - intros k tp. unfold trained_aaabdaaabac.
    destruct (decide (257 = k)) as [<-|Hk].
    + intros _. lia.
    + rewrite lookup_insert_ne by done.
      intros [<- _]%lookup_singleton_Some. lia.
Defined.

(** Token 257 of the table learned from "aaabdaaabac" is shown as "aaa";
    a byte outside the printable range and an unknown id are shown as
    bracketed numbers. *)
Example decode_token_samples :
  decode_token 2 trained_aaabdaaabac 257 = Some "aaa"
  ∧ decode_token 0 trained_aaabdaaabac 10 = Some "[10]"
  ∧ decode_token 0 trained_aaabdaaabac 300 = Some "[300]".
Proof. vm_compute. done. Qed.

(** ** Where training stops *)

(** X15: on raw input with a target size above 256, training never mints an id
    beyond the target: it ends with [mint_token <= target], and it ends
    either with [mint_token = target] (the vocabulary is full) or with no
    pair left that occurs more than once. *)
Theorem train_stops_full_or_saturated (tokens : list Z) (v : Z) (fuel : nat)
    (self : Tokenizer) :
  raw tokens → 256 < v →
  train fuel (init tokens v) = Ok self →
  256 ≤ mint_token self ≤ v
  ∧ (mint_token self = v
     ∨ ∃ top, get_most_common (count (encoded_tokens self)) = Some top
              ∧ frequency top = 1).
Proof.
  intros Hraw Hv.
  apply (train_rule
           (λ s, below_mint s ∧ 256 ≤ mint_token s < v ∧ encoding_vocab_size s = v)
           (λ s, 256 ≤ mint_token s ≤ v
                 ∧ (mint_token s = v
                    ∨ ∃ top, get_most_common (count (encoded_tokens s)) = Some top
                             ∧ frequency top = 1))).
  - intros s top ((Hc & _) & Hm & _) Hget Hf. split; [lia|]. right.
    exists top. by rewrite <- Hc.
  - intros s top m (Hb & Hm & Hvs) Hget _ Hmax Hstop.
    pose proof (merge_step_max_raw _ _ _ Hb Hget Hmax) as ->.
    simpl. split; [lia|]. left. lia.
  - intros s top m (Hb & Hm & Hvs) Hget _ Hmax Hstop.
    pose proof (merge_step_max_raw _ _ _ Hb Hget Hmax) as ->.
    split_and!; [by apply below_mint_step|simpl; lia..|done].
  - split_and!; [by apply below_mint_init|simpl; lia..|done].
Qed.

Lemma train_stops_full_or_saturated_witness :
  256 ≤ mint_token
          (merge_step (merge_step (init aaabdaaabac 258) (mkTokenPair 97 97 4))
             (mkTokenPair 256 97 2)) ≤ 258
  ∧ (mint_token
       (merge_step (merge_step (init aaabdaaabac 258) (mkTokenPair 97 97 4))
          (mkTokenPair 256 97 2)) = 258
     ∨ ∃ top,
         get_most_common
           (count
              (encoded_tokens
                 (merge_step (merge_step (init aaabdaaabac 258) (mkTokenPair 97 97 4))
                    (mkTokenPair 256 97 2)))) = Some top
         ∧ frequency top = 1).
Proof.
  apply (train_stops_full_or_saturated aaabdaaabac 258 11).
  - unfold raw, aaabdaaabac. repeat constructor; lia.
  - lia.
  - vm_compute. reflexivity.
Defined.

(** ** File names *)

Lemma string_app_inj_l (x y z : string) : x +:+ y = x +:+ z → y = z.
Proof.
  induction x as [|c x IH]; [done|]. rewrite !string_app_cons. intros [= ?]. by apply IH.
Qed.

Lemma string_to_list_app (x y : string) :
  String.list_ascii_of_string (x +:+ y)
  = String.list_ascii_of_string x ++ String.list_ascii_of_string y.
Proof.
  induction x as [|c x IH]; [done|]. rewrite string_app_cons. simpl. by rewrite IH.
Qed.

Lemma string_app_inj_r (x y z : string) : x +:+ z = y +:+ z → x = y.
Proof.
  intros Heq. apply (f_equal String.list_ascii_of_string) in Heq.
  rewrite !string_to_list_app in Heq. apply app_inv_tail in Heq.
  apply (f_equal String.string_of_list_ascii) in Heq.
  by rewrite !String.string_of_list_ascii_of_string in Heq.
Qed.

(** X16: for a given prefix, tokenizers with different names are stored under
    different file names; an empty prefix gives the same name as no
    prefix. *)
Theorem filename_distinct (name1 name2 : string) (path_prefix : option string) :
  (_filename name1 path_prefix = _filename name2 path_prefix → name1 = name2)
  ∧ _filename name1 (Some "") = _filename name1 None.
Proof.
  split; [|done]. unfold _filename. cbv zeta.
  destruct path_prefix as [pre|]; [case_decide|]; intros Heq.
  2: apply string_app_inj_l in Heq.
  all: by apply string_app_inj_l, string_app_inj_r in Heq.
Qed.

(** ** Decoding piecewise *)

Lemma decode_pass_app dm xs ys :
  decode_pass dm (xs ++ ys)
  = ((decode_pass dm xs).1 && (decode_pass dm ys).1,
     (decode_pass dm xs).2 ++ (decode_pass dm ys).2).
Proof. rewrite !decode_pass_spec. cbn [fst snd]. by rewrite forallb_app, flat_map_app. Qed.

Lemma decode_fuel_mono fuel fuel' dm ts r :
  decode fuel dm ts = Some r → (fuel ≤ fuel')%nat → decode fuel' dm ts = Some r.
Proof.
  revert fuel' ts. induction fuel as [|fuel IH]; intros fuel' ts;
    rewrite !(decode_unfold _ dm ts); destruct (decode_pass dm ts).1; try done.
  intros Hd Hle. destruct fuel' as [|fuel']; [lia|]. apply IH; [done|lia].
Qed.

Lemma decode_no_keys fuel dm ts :
  (decode_pass dm ts).1 = true → decode fuel dm ts = Some ts.
Proof.
  intros Hflag. rewrite decode_unfold, Hflag.
  by rewrite decode_pass_id by (by apply decode_pass_done).
Qed.

Lemma decode_app_same_fuel fuel dm xs ys rx ry :
  decode fuel dm xs = Some rx → decode fuel dm ys = Some ry →
  decode fuel dm (xs ++ ys) = Some (rx ++ ry).
Proof.
  revert xs ys. induction fuel as [|fuel IH]; intros xs ys;
    rewrite (decode_unfold _ dm xs), (decode_unfold _ dm ys),
      (decode_unfold _ dm (xs ++ ys)), decode_pass_app; cbn [fst snd];
    destruct (decode_pass dm xs).1 eqn:Hx, (decode_pass dm ys).1 eqn:Hy;
    cbn [andb]; try done; try (by intros [= <-] [= <-]).
  - intros [= <-] Hd. apply IH; [|done].
    apply decode_no_keys. rewrite decode_pass_id by (by apply decode_pass_done). done.
  - intros Hd [= <-]. apply IH; [done|].
    apply decode_no_keys. rewrite decode_pass_id by (by apply decode_pass_done). done.
  - intros ? ?. by apply IH.
Qed.

(** X17: whatever the decoding map, [decode] works symbol by symbol: when it
    returns on two sequences, it returns on their concatenation, with the
    concatenation of the two results. *)
Theorem decode_app (dm : gmap Z TokenPair) (xs ys rx ry : list Z) (fuel1 fuel2 : nat) :
  decode fuel1 dm xs = Some rx →
  decode fuel2 dm ys = Some ry →
  ∀ n, (fuel1 `max` fuel2 ≤ n)%nat → decode n dm (xs ++ ys) = Some (rx ++ ry).
Proof.
  intros Hx Hy n Hn.
  apply decode_app_same_fuel; eapply decode_fuel_mono; try done; lia.
Qed.

Lemma decode_app_witness :
  decode 2 trained_aaabdaaabac ([257; 98] ++ [256]) = Some ([97; 97; 97; 98] ++ [97; 97]).
Proof.
  apply (decode_app trained_aaabdaaabac [257; 98] [256] _ _ 2 1);
    [vm_compute; reflexivity..|simpl; lia].
Defined.

(** ** Ids stay inside the vocabulary *)

Lemma merge_scan_elem em l s :
  s ∈ (merge_scan em l).2 → s ∈ l ∨ ∃ p, em !! p = Some s.
Proof.
  induction l as [l IH] using (induction_ltof1 _ (@length Z)); unfold ltof in IH.
  destruct l as [|x [|y rest]]; [by left..|].
  rewrite merge_scan_cons.
  pose proof (IH rest ltac:(simpl; lia)) as IHr.
  pose proof (IH (y :: rest) ltac:(simpl; lia)) as IHy.
  destruct (em !! (x, y)) as [t|] eqn:Hxy; [destruct (truthy t)|]; cbn [snd].
  all: intros [->|Hin]%elem_of_cons; [eauto using list_elem_of_here|].
  - destruct (IHr Hin) as [?|?]; [left; set_solver|by right].
  - destruct (IHy Hin) as [?|?]; [left; set_solver|by right].
  - destruct (IHy Hin) as [?|?]; [left; set_solver|by right].
Qed.

Lemma encode_elem fuel em l out s :
  encode fuel em l = Some out → s ∈ out → s ∈ l ∨ ∃ p, em !! p = Some s.
Proof.
  revert l. induction fuel as [|fuel IH]; intros l; rewrite encode_unfold;
    destruct (merge_scan em l).1; try done.
  1,2: intros [= <-]; apply merge_scan_elem.
  intros Henc Hs. destruct (IH _ Henc Hs) as [Hin|?]; [|by right].
  by apply merge_scan_elem.
Qed.

(** X18: every symbol [encode] returns is a symbol of its input or a value of
    the encoding map; so with a trained table, an input made of ids in
    [0, mint_token) is encoded into ids in [0, mint_token). *)
Theorem encode_output_valid (tokens : list Z) (v : Z) (fuel fuel' : nat)
    (self : Tokenizer) (ts out : list Z) :
  train fuel (init tokens v) = Ok self →
  valid_ids self ts →
  encode fuel' (encoding_map self) ts = Some out →
  valid_ids self out.
Proof.
  intros Ht Hvalid Henc. destruct (train_tables_ok _ _ _ _ Ht) as (_ & _ & Hem).
  unfold valid_ids in *. rewrite Forall_forall in *. intros s Hs.
  destruct (encode_elem _ _ _ _ _ Henc Hs) as [Hin|[p Hp]]; [by apply Hvalid|].
  destruct (Hem _ _ Hp) as [? _]. lia.
Qed.

Lemma encode_output_valid_witness :
  valid_ids
    (merge_step (merge_step (init aaabdaaabac 258) (mkTokenPair 97 97 4))
       (mkTokenPair 256 97 2)) [257; 98].
Proof.
  apply (encode_output_valid aaabdaaabac 258 11 4 _ [97; 97; 97; 98]).
  - vm_compute. reflexivity.
  - unfold valid_ids. simpl. repeat constructor; lia.
  - vm_compute. reflexivity.
Defined.

(** X19: after training on raw input every symbol of the returned stream is a
    raw byte or a minted id, and with a target size above 256 every symbol
    is below the target size. *)
Theorem train_stream_valid (tokens : list Z) (v : Z) (fuel : nat) (self : Tokenizer) :
  raw tokens →
  train fuel (init tokens v) = Ok self →
  valid_ids self (encoded_tokens self)
  ∧ (256 < v → Forall (λ s, 0 ≤ s < v) (encoded_tokens self)).
Proof.
  intros Hraw Ht.
  destruct (train_ids_nonneg _ _ _ _ Hraw Ht) as (_ & _ & Hnn & _).
  assert (below_mint self) as (_ & Hlt & _).
  { revert Ht. apply (train_invariant below_mint); [|by apply below_mint_init].
    intros ? ? ? ? _. by apply below_mint_step. }
  assert (valid_ids self (encoded_tokens self)) as Hvalid.
  { unfold valid_ids. rewrite Forall_forall. intros s Hs.
    specialize (Hnn s Hs). specialize (Hlt s Hs). lia. }
  split; [done|]. intros Hv.
  assert (mint_token self ≤ v) as Hm.
  { revert Ht.
    apply (train_rule
             (λ s, below_mint s ∧ mint_token s < v ∧ encoding_vocab_size s = v)
             (λ s, mint_token s ≤ v)).
    - intros s top (_ & ? & _) _ _. lia.
    - intros s top m (Hb & ? & ?) Hget _ Hmax ?.
      pose proof (merge_step_max_raw _ _ _ Hb Hget Hmax) as ->. simpl. lia.
    - intros s top m (Hb & ? & ?) Hget _ Hmax ?.
      pose proof (merge_step_max_raw _ _ _ Hb Hget Hmax) as ->.
      split_and!; [by apply below_mint_step|simpl; lia|done].
    - split_and!; [by apply below_mint_init|simpl; lia|done]. }
  eapply Forall_impl; [exact Hvalid|]. simpl. intros s ?. lia.
Qed.

Lemma train_stream_valid_witness :
  valid_ids
    (merge_step (merge_step (init aaabdaaabac 258) (mkTokenPair 97 97 4))
       (mkTokenPair 256 97 2))
    (encoded_tokens
       (merge_step (merge_step (init aaabdaaabac 258) (mkTokenPair 97 97 4))
          (mkTokenPair 256 97 2)))
  ∧ (256 < 258 →
     Forall (λ s, 0 ≤ s < 258)
       (encoded_tokens
          (merge_step (merge_step (init aaabdaaabac 258) (mkTokenPair 97 97 4))
             (mkTokenPair 256 97 2)))).
Proof.
  apply (train_stream_valid aaabdaaabac 258 11).
  - unfold raw, aaabdaaabac. repeat constructor; lia.
  - vm_compute. reflexivity.
Defined.
